(** * iam-runtime-static: the static policy server

    A shallow embedding of [internal/server/server.go]: the access check
    [checkAccess], the construction of the token table [newFromPolicy] and
    the two request handlers [AuthenticateSubject] and [CheckAccess], and
    the constructor [NewServer].

    Go strings are [string]; slices are lists; the [map[string]policySubject]
    is a [gmap string policySubject]; a Go function returning [(T, error)]
    returns a pair of options, [nil] being [None]. *)

From stdpp Require Import gmap strings list fin_maps.

Open Scope string_scope.
Open Scope list_scope.

(** ** The policy document *)

(** Modelled from the spec: the struct declarations of the policy document
    ([policy], [policySubject], [policyToken], [policyResource]) live outside
    [server.go]; their fields are the ones [server.go] selects
    ([c.Subjects], [sub.ID], [sub.Tokens], [sub.Resources], [tok.EnvVar],
    [candidate.ID], [resource.Actions]) and the ones the spec's document
    shape lists. *)
Record policyToken := mkToken { EnvVar : string }.

Module policyResource.
Record t := mk { ID : string; Actions : list string }.
(** The zero value of the struct: what [var resource policyResource] holds. *)
Definition zero : t := {| ID := ""; Actions := [] |}.
End policyResource.
Abbreviation policyResource := policyResource.t.

Module policySubject.
Record t := mk { ID : string; Tokens : list policyToken; Resources : list policyResource }.
End policySubject.
Abbreviation policySubject := policySubject.t.

Record policy := mkPolicy { Subjects : list policySubject }.

(** Struct values are compared field by field. *)
#[global] Instance policyToken_eq_dec : EqDecision policyToken.
Proof. solve_decision. Defined.

#[global] Instance policyResource_eq_dec : EqDecision policyResource.
Proof. solve_decision. Defined.

#[global] Instance policySubject_eq_dec : EqDecision policySubject.
Proof. solve_decision. Defined.

(** ** checkAccess *)

(** One iteration of the first loop of [checkAccess]: the loop has no
    [break], so a later candidate with the same identifier overwrites
    [resource]. *)
Definition scan_step (resourceID : string) (st : policyResource * bool)
    (candidate : policyResource) : policyResource * bool :=
  if decide (policyResource.ID candidate = resourceID) then (candidate, true) else st.

(** The second loop of [checkAccess]: it returns [true] at the first
    candidate equal to [action], and falls through to [false]. *)
Fixpoint scan_actions (action : string) (actions : list string) : bool :=
  match actions with
  | [] => false
  | candidate :: rest =>
      if decide (candidate = action) then true else scan_actions action rest
  end.

Definition checkAccess (sub : policySubject) (action resourceID : string) : bool :=
  let '(resource, found) :=
    foldl (scan_step resourceID) (policyResource.zero, false)
          (policySubject.Resources sub) in
  if negb found then false
  else scan_actions action (policyResource.Actions resource).

(** The entry the spec's wording selects: the first one whose identifier is
    [resourceID]. Used only to compare with what [checkAccess] does. *)
Definition first_match (sub : policySubject) (resourceID : string) : option policyResource :=
  List.find (fun r => bool_decide (policyResource.ID r = resourceID))
            (policySubject.Resources sub).

(** ** The server and its construction *)

(** [os.Getenv]: the value of the variable, or the empty string when the
    variable is not set. The process environment is an explicit argument. *)
Definition Getenv (env : gmap string string) (key : string) : string :=
  default "" (env !! key).

(** Modelled from the spec: the sentinel errors [ErrMissingValue] and
    [ErrDuplicateValue] are declared outside [server.go]; the spec names them
    MissingValueError and DuplicateValueError. *)
Inductive sentinel := ErrMissingValue | ErrDuplicateValue.

(** [fmt.Errorf("%s: %s: %w", subID, envVar, err)]: the error carries the two
    formatted arguments and wraps the sentinel. *)
Record wrapError := Errorf { errSubject : string; errSource : string; Unwrap : sentinel }.

(** The [server] struct: the token table, and the logger, modelled by the
    list of messages it has been handed. *)
Record server := mkServer { tokens : gmap string policySubject; logger : list string }.

(** The inner loop of [newFromPolicy], over [sub.Tokens]: [inl] is the early
    [return nil, err], [inr] the table when the loop runs to its end. *)
Fixpoint tokens_loop (env : gmap string string) (sub : policySubject)
    (toks : list policyToken) (table : gmap string policySubject)
    : wrapError + gmap string policySubject :=
  match toks with
  | [] => inr table
  | tok :: rest =>
      let tokValue := Getenv env (EnvVar tok) in
      if decide (tokValue = "") then
        inl (Errorf (policySubject.ID sub) (EnvVar tok) ErrMissingValue)
      else
        match table !! tokValue with
        | Some _ => inl (Errorf (policySubject.ID sub) (EnvVar tok) ErrDuplicateValue)
        | None => tokens_loop env sub rest (<[tokValue := sub]> table)
        end
  end.

(** The outer loop of [newFromPolicy], over [c.Subjects]. *)
Fixpoint subjects_loop (env : gmap string string) (subs : list policySubject)
    (table : gmap string policySubject) : wrapError + gmap string policySubject :=
  match subs with
  | [] => inr table
  | sub :: rest =>
      match tokens_loop env sub (policySubject.Tokens sub) table with
      | inl err => inl err
      | inr table' => subjects_loop env rest table'
      end
  end.

Definition newFromPolicy (env : gmap string string) (c : policy) (log : list string)
    : option server * option wrapError :=
  match subjects_loop env (Subjects c) ∅ with
  | inl err => (None, Some err)
  | inr table => (Some {| tokens := table; logger := log |}, None)
  end.

(** ** The request handlers *)

Module codes.
(** The two gRPC status codes [server.go] uses. *)
Inductive Code := Unauthenticated | PermissionDenied.
End codes.

Module status.
Record Status := Errorf { Code : codes.Code; Message : string }.
End status.

Module authentication.
Record AuthenticateSubjectRequest := mkRequest { Credential : string }.
Record AuthenticateSubjectResponse := mkResponse { SubjectClaims : gmap string string }.
End authentication.

Module authorization.
Record CheckAccessRequest_Action := mkAction { Action : string; ResourceId : string }.
Record CheckAccessRequest :=
  mkRequest { Credential : string; Actions : list CheckAccessRequest_Action }.
Record CheckAccessResponse := mkResponse { }.
End authorization.

(** [s.logger.Info(msg)]: the only effect a handler has on the server. *)
Definition Info (msg : string) (s : server) : server :=
  {| tokens := tokens s; logger := logger s ++ [msg] |}.

Definition AuthenticateSubject (s : server) (req : authentication.AuthenticateSubjectRequest)
    : server * (option authentication.AuthenticateSubjectResponse * option status.Status) :=
  let s := Info "received AuthenticateSubject request" s in
  match tokens s !! authentication.Credential req with
  | None => (s, (None, Some (status.Errorf codes.Unauthenticated "invalid credential")))
  | Some sub =>
      (s, (Some {| authentication.SubjectClaims := {[ "sub" := policySubject.ID sub ]} |},
           None))
  end.

(** The message of the permission error: the format string of [CheckAccess]
    with its two [%s] filled in. *)
Definition denied_message (action resourceId : string) : string :=
  ("subject does not have permission to perform '" ++ action ++
   "' on resource '" ++ resourceId ++ "'")%string.

(** The loop of [CheckAccess] over [req.Actions]. The first component lists
    the pairs [checkAccess] was called on, in order; the second is the error
    of the early return, or [None] when the loop runs to its end. *)
Fixpoint CheckAccess_loop (sub : policySubject)
    (actions : list authorization.CheckAccessRequest_Action)
    : list authorization.CheckAccessRequest_Action * option status.Status :=
  match actions with
  | [] => ([], None)
  | action :: rest =>
      if checkAccess sub (authorization.Action action) (authorization.ResourceId action)
      then
        let '(called, err) := CheckAccess_loop sub rest in (action :: called, err)
      else
        ([action],
         Some (status.Errorf codes.PermissionDenied
                 (denied_message (authorization.Action action)
                                 (authorization.ResourceId action))))
  end.

Definition CheckAccess (s : server) (req : authorization.CheckAccessRequest)
    : server * (option authorization.CheckAccessResponse * option status.Status) :=
  let s := Info "received CheckAccess request" s in
  match tokens s !! authorization.Credential req with
  | None => (s, (None, Some (status.Errorf codes.Unauthenticated "invalid credential")))
  | Some sub =>
      match snd (CheckAccess_loop sub (authorization.Actions req)) with
      | Some err => (s, (None, Some err))
      | None => (s, (Some authorization.mkResponse, None))
      end
  end.

(** A request to either service, and the server after a sequence of them:
    the state a handler leaves is the state the next one starts from. *)
Inductive request :=
  | ReqAuthenticateSubject (req : authentication.AuthenticateSubjectRequest)
  | ReqCheckAccess (req : authorization.CheckAccessRequest).

Definition serve (s : server) (r : request) : server :=
  match r with
  | ReqAuthenticateSubject req => fst (AuthenticateSubject s req)
  | ReqCheckAccess req => fst (CheckAccess s req)
  end.

Definition serve_all (s : server) (rs : list request) : server := foldl serve s rs.

(** ** The document as a sequence of credential sources *)

(** The sources of a document in the order [newFromPolicy] reaches them:
    subjects in order, each with its tokens in order. *)
Definition sources (subs : list policySubject) : list (policySubject * policyToken) :=
  sub ← subs; (fun tok => (sub, tok)) <$> policySubject.Tokens sub.

(** The value a source resolves to. *)
Definition resolve (env : gmap string string) (src : policySubject * policyToken) : string :=
  Getenv env (EnvVar src.2).

(** The two loops of [newFromPolicy] as one loop over [sources]. *)
Fixpoint sources_loop (env : gmap string string) (srcs : list (policySubject * policyToken))
    (table : gmap string policySubject) : wrapError + gmap string policySubject :=
  match srcs with
  | [] => inr table
  | (sub, tok) :: rest =>
      let tokValue := Getenv env (EnvVar tok) in
      if decide (tokValue = "") then
        inl (Errorf (policySubject.ID sub) (EnvVar tok) ErrMissingValue)
      else
        match table !! tokValue with
        | Some _ => inl (Errorf (policySubject.ID sub) (EnvVar tok) ErrDuplicateValue)
        | None => sources_loop env rest (<[tokValue := sub]> table)
        end
  end.

(** ** The example of the spec: one subject, one token, one resource *)

Definition db1 : policyResource := {| policyResource.ID := "db1"; policyResource.Actions := ["read"] |}.

Definition svc_a : policySubject :=
  {| policySubject.ID := "svc-a";
     policySubject.Tokens := [ {| EnvVar := "TOKEN_A" |} ];
     policySubject.Resources := [ db1 ] |}.

Definition example_policy : policy := {| Subjects := [ svc_a ] |}.

Definition example_env : gmap string string := {[ "TOKEN_A" := "abc123" ]}.

Definition example_table : gmap string policySubject := {[ "abc123" := svc_a ]}.

Definition example_server : server := {| tokens := example_table; logger := [] |}.

Definition queue : policyResource :=
  {| policyResource.ID := "queue"; policyResource.Actions := ["publish"; "consume"] |}.

Definition svc_b : policySubject :=
  {| policySubject.ID := "svc-b";
     policySubject.Tokens := [ {| EnvVar := "TOKEN_B" |}; {| EnvVar := "TOKEN_B2" |} ];
     policySubject.Resources := [ db1; queue ] |}.

(** Decidable closed facts are settled by evaluation. *)
Ltac by_evaluation := apply (bool_decide_unpack _); vm_compute; exact I.

(** A subject that declares the identifier [db1] twice. *)
Definition db1_write : policyResource :=
  {| policyResource.ID := "db1"; policyResource.Actions := ["write"] |}.

Definition svc_dup : policySubject :=
  {| policySubject.ID := "svc-dup";
     policySubject.Tokens := [ {| EnvVar := "TOKEN_D" |} ];
     policySubject.Resources := [ db1; db1_write ] |}.

(** A document with two subjects and three credential sources, and four
    environments for it. *)
Definition two_subjects : policy := {| Subjects := [ svc_a; svc_b ] |}.

(** All three variables set, to distinct values. *)
Definition env_distinct : gmap string string :=
  {[ "TOKEN_A" := "abc123"; "TOKEN_B" := "def456"; "TOKEN_B2" := "ghi789" ]}.

(** [TOKEN_B] is not set. *)
Definition env_missing : gmap string string :=
  {[ "TOKEN_A" := "abc123"; "TOKEN_B2" := "ghi789" ]}.

(** [TOKEN_A] and [TOKEN_B] share a value; [TOKEN_B2] is not set. *)
Definition env_shared_then_missing : gmap string string :=
  {[ "TOKEN_A" := "shared-secret"; "TOKEN_B" := "shared-secret" ]}.

(** [TOKEN_A] is not set; [TOKEN_B] and [TOKEN_B2] share a value. *)
Definition env_missing_then_shared : gmap string string :=
  {[ "TOKEN_B" := "shared-secret"; "TOKEN_B2" := "shared-secret" ]}.

(** A batch of three pairs, the second of which [svc_b] is not granted. *)
Definition example_batch : list authorization.CheckAccessRequest_Action :=
  [ {| authorization.Action := "read"; authorization.ResourceId := "db1" |};
    {| authorization.Action := "write"; authorization.ResourceId := "db1" |};
    {| authorization.Action := "delete"; authorization.ResourceId := "queue" |} ].

Definition server_b : server := {| tokens := {[ "def456" := svc_b ]}; logger := [] |}.

(** [checkAccess] on a pair of a request. *)
Definition granted (sub : policySubject) (pair : authorization.CheckAccessRequest_Action) : bool :=
  checkAccess sub (authorization.Action pair) (authorization.ResourceId pair).

(** The error [CheckAccess] returns for a pair that is not granted. *)
Definition denied (pair : authorization.CheckAccessRequest_Action) : status.Status :=
  status.Errorf codes.PermissionDenied
    (denied_message (authorization.Action pair) (authorization.ResourceId pair)).

(** ** NewServer *)

(** The value of the interface type [Server] that [NewServer] returns: the
    nil interface, or an interface holding a [*server], a pointer that is
    itself nil ([None]) or points to a server. *)
Inductive Server := nilServer | ServerOf (ptr : option server).

(** The errors [NewServer] returns: one of [os.Open] or of [readPolicy],
    neither declared in [server.go], or the one of [newFromPolicy]. *)
Inductive error (E : Type) := External (err : E) | Wrapped (err : wrapError).
Arguments External {E} err.
Arguments Wrapped {E} err.

(** [NewServer]: what it returns. [os.Open] and [readPolicy] are arguments:
    [Open] gives an error or a file, [readPolicy] a policy value and an error
    or [nil]. The [return] of the last line converts the [*server] of
    [newFromPolicy] to the interface. The deferred [f.Close()] changes
    neither result. *)
Definition NewServer {F E : Type} (Open : string → E + F) (readPolicy : F → policy * option E)
    (env : gmap string string) (policyPath : string) (log : list string)
    : Server * option (error E) :=
  match Open policyPath with
  | inl err => (nilServer, Some (External err))
  | inr f =>
      match readPolicy f with
      | (_, Some err) => (nilServer, Some (External err))
      | (c, None) =>
          let '(out, err) := newFromPolicy env c log in
          (ServerOf out, Wrapped <$> err)
      end
  end.

(** A file system with one policy file, which reads as [two_subjects]. *)
Definition example_Open (path : string) : string + unit :=
  if decide (path = "/etc/iam/policy.yaml") then inr tt else inl "no such file or directory".

Definition example_readPolicy (f : unit) : policy * option string := (two_subjects, None).

(** The message a handler hands to the logger for a request. *)
Definition received (r : request) : string :=
  match r with
  | ReqAuthenticateSubject _ => "received AuthenticateSubject request"
  | ReqCheckAccess _ => "received CheckAccess request"
  end.

(** The outcome of a request, without the server it leaves. *)
Definition authenticate (s : server) (credential : string)
    : option authentication.AuthenticateSubjectResponse * option status.Status :=
  (AuthenticateSubject s {| authentication.Credential := credential |}).2.

Definition authorize (s : server) (credential : string)
    (pairs : list authorization.CheckAccessRequest_Action)
    : option authorization.CheckAccessResponse * option status.Status :=
  (CheckAccess s {| authorization.Credential := credential;
                    authorization.Actions := pairs |}).2.

(** The Unauthenticated error of both handlers. *)
Definition invalid_credential : status.Status :=
  status.Errorf codes.Unauthenticated "invalid credential".

(** The environment [env_distinct] with one more variable, which the
    document does not name. *)
Definition env_larger : gmap string string := <[ "HOME" := "/root" ]> env_distinct.

(** A subject that declares no token, and a document of it alone. *)
Definition svc_idle : policySubject :=
  {| policySubject.ID := "svc-idle"; policySubject.Tokens := [];
     policySubject.Resources := [ db1 ] |}.

Definition idle_policy : policy := {| Subjects := [ svc_idle ] |}.

(** A second subject that names the variable of [svc_a]. *)
Definition svc_a2 : policySubject :=
  {| policySubject.ID := "svc-a2";
     policySubject.Tokens := [ {| EnvVar := "TOKEN_A" |} ];
     policySubject.Resources := [] |}.

Definition shared_variable_policy : policy := {| Subjects := [ svc_a; svc_a2 ] |}.

(** The pairs of [example_batch] that [svc_b] is granted, in both orders. *)
Definition granted_batch : list authorization.CheckAccessRequest_Action :=
  [ {| authorization.Action := "read"; authorization.ResourceId := "db1" |};
    {| authorization.Action := "publish"; authorization.ResourceId := "queue" |} ].

Definition granted_batch_swapped : list authorization.CheckAccessRequest_Action :=
  [ {| authorization.Action := "publish"; authorization.ResourceId := "queue" |};
    {| authorization.Action := "read"; authorization.ResourceId := "db1" |} ].

(** ** Facts about the two scans *)

Lemma scan_actions_elem_of (action : string) (actions : list string) :
  scan_actions action actions = true ↔ action ∈ actions.
Proof.
  induction actions as [|candidate rest IH]; simpl.
  - split; [discriminate | intros H; inversion H].
  - rewrite elem_of_cons. case_decide as Heq.
    + subst. tauto.
    + rewrite IH. split; [tauto | intros [->|H]; [congruence | done]].
Qed.

Lemma scan_none (resourceID : string) (rs : list policyResource) (st : policyResource * bool) :
  Forall (fun r => policyResource.ID r ≠ resourceID) rs →
  foldl (scan_step resourceID) st rs = st.
Proof.
  intros Hall. revert st.
  induction Hall as [|r rs Hr _ IH]; intros st; simpl; [done|].
  unfold scan_step at 2. rewrite decide_False by done. apply IH.
Qed.

Lemma scan_last (resourceID : string) (pre post : list policyResource)
    (r : policyResource) (st : policyResource * bool) :
  policyResource.ID r = resourceID →
  Forall (fun r' => policyResource.ID r' ≠ resourceID) post →
  foldl (scan_step resourceID) st (pre ++ r :: post) = (r, true).
Proof.
  intros Hr Hpost. rewrite foldl_app. simpl.
  unfold scan_step at 2. rewrite decide_True by done.
  by apply scan_none.
Qed.

Lemma checkAccess_last (sub : policySubject) (action resourceID : string)
    (pre post : list policyResource) (r : policyResource) :
  policySubject.Resources sub = pre ++ r :: post →
  policyResource.ID r = resourceID →
  Forall (fun r' => policyResource.ID r' ≠ resourceID) post →
  checkAccess sub action resourceID = scan_actions action (policyResource.Actions r).
Proof.
  intros Hres Hr Hpost. unfold checkAccess.
  rewrite Hres, (scan_last _ _ _ _ _ Hr Hpost). done.
Qed.

(** In a list whose identifiers are pairwise distinct, nothing after an
    entry carries that entry's identifier. *)
Lemma NoDup_ids_after (pre post : list policyResource) (r : policyResource) :
  NoDup (policyResource.ID <$> (pre ++ r :: post)) →
  Forall (fun r' => policyResource.ID r' ≠ policyResource.ID r) post.
Proof.
  rewrite fmap_app, fmap_cons. intros Hnd.
  apply NoDup_app in Hnd as (_ & _ & Hnd).
  apply NoDup_cons in Hnd as [Hnotin _].
  apply Forall_forall. intros r' Hin Heq.
  apply Hnotin. rewrite <- Heq. by apply list_elem_of_fmap_2.
Qed.

(** ** checkAccess: the theorems *)

(** C1. For a subject whose resource identifiers are pairwise distinct, a
    resource [r] of the subject and any action, [checkAccess] on [r]'s
    identifier is [true] exactly when the action is one of [r]'s actions. *)
Theorem checkAccess_iff_allowed (sub : policySubject) (r : policyResource) (action : string) :
  NoDup (policyResource.ID <$> policySubject.Resources sub) →
  r ∈ policySubject.Resources sub →
  checkAccess sub action (policyResource.ID r) = true ↔ action ∈ policyResource.Actions r.
Proof.
  intros Hnd Hin.
  apply list_elem_of_split in Hin as (pre & post & Hres).
  rewrite Hres in Hnd. apply NoDup_ids_after in Hnd.
  rewrite (checkAccess_last sub action _ pre post r Hres eq_refl Hnd).
  apply scan_actions_elem_of.
Qed.

Lemma checkAccess_iff_allowed_witness :
  NoDup (policyResource.ID <$> policySubject.Resources svc_b) ∧
  queue ∈ policySubject.Resources svc_b ∧
  (checkAccess svc_b "consume" (policyResource.ID queue) = true
   ↔ "consume" ∈ policyResource.Actions queue).
Proof.
  assert (Hnd : NoDup (policyResource.ID <$> policySubject.Resources svc_b))
    by by_evaluation.
  assert (Hin : queue ∈ policySubject.Resources svc_b)
    by (right; left).
  exact (conj Hnd (conj Hin (checkAccess_iff_allowed svc_b queue "consume" Hnd Hin))).
Defined.

(** C2, as the claim states it, fails: [svc_dup] declares [db1] twice, the
    first entry with [read] and the second with [write]; the first matching
    entry allows [read], and [checkAccess] denies it (and allows [write],
    which the first entry does not list). *)
Lemma checkAccess_not_first_match :
  first_match svc_dup "db1" = Some db1 ∧
  bool_decide ("read" ∈ policyResource.Actions db1) = true ∧
  checkAccess svc_dup "read" "db1" = false ∧
  bool_decide ("write" ∈ policyResource.Actions db1) = false ∧
  checkAccess svc_dup "write" "db1" = true ∧
  checkAccess svc_dup "read" "db1" ≠ bool_decide ("read" ∈ policyResource.Actions db1).
Proof. vm_compute. repeat split. discriminate. Qed.

(** C2, amended. When several entries of a subject carry the identifier
    [resourceID], [checkAccess] evaluates the action set of the LAST of them:
    if [r] has that identifier and no entry after [r] has it, the result is
    [true] exactly when the action is one of [r]'s actions. *)
Theorem checkAccess_last_match (sub : policySubject) (action resourceID : string)
    (pre post : list policyResource) (r : policyResource) :
  policySubject.Resources sub = pre ++ r :: post →
  policyResource.ID r = resourceID →
  Forall (fun r' => policyResource.ID r' ≠ resourceID) post →
  checkAccess sub action resourceID = true ↔ action ∈ policyResource.Actions r.
Proof.
  intros Hres Hr Hpost.
  rewrite (checkAccess_last sub action resourceID pre post r Hres Hr Hpost).
  apply scan_actions_elem_of.
Qed.

Lemma checkAccess_last_match_witness :
  policySubject.Resources svc_dup = [db1] ++ db1_write :: [] ∧
  policyResource.ID db1_write = "db1" ∧
  Forall (fun r' => policyResource.ID r' ≠ "db1") [] ∧
  (checkAccess svc_dup "write" "db1" = true ↔ "write" ∈ policyResource.Actions db1_write).
Proof.
  refine (conj eq_refl (conj eq_refl (conj (Forall_nil_2 _) _))).
  exact (checkAccess_last_match svc_dup "write" "db1" [db1] [] db1_write
           eq_refl eq_refl (Forall_nil_2 _)).
Defined.

(** C3. When no entry of the subject carries the identifier [resourceID],
    [checkAccess] is [false], whatever the action. *)
Theorem checkAccess_unknown_resource (sub : policySubject) (action resourceID : string) :
  resourceID ∉ policyResource.ID <$> policySubject.Resources sub →
  checkAccess sub action resourceID = false.
Proof.
  intros Hnotin. unfold checkAccess.
  rewrite scan_none; [done|].
  apply Forall_forall. intros r Hin Heq. apply Hnotin.
  rewrite <- Heq. by apply list_elem_of_fmap_2.
Qed.

Lemma checkAccess_unknown_resource_witness :
  ("db2" ∉ policyResource.ID <$> policySubject.Resources svc_b) ∧
  checkAccess svc_b "read" "db2" = false.
Proof.
  assert (Hnotin : "db2" ∉ policyResource.ID <$> policySubject.Resources svc_b)
    by by_evaluation.
  exact (conj Hnotin (checkAccess_unknown_resource svc_b "read" "db2" Hnotin)).
Defined.

(** ** newFromPolicy: the nested loops as one loop over the sources *)

Lemma sources_loop_app (env : gmap string string)
    (front back : list (policySubject * policyToken)) (table : gmap string policySubject) :
  sources_loop env (front ++ back) table =
  match sources_loop env front table with
  | inl err => inl err
  | inr table' => sources_loop env back table'
  end.
Proof.
  revert table. induction front as [|[sub tok] front IH]; intros table; simpl; [done|].
  case_decide; [done|]. destruct (table !! _); [done|]. apply IH.
Qed.

Lemma tokens_loop_sources (env : gmap string string) (sub : policySubject)
    (toks : list policyToken) (table : gmap string policySubject) :
  tokens_loop env sub toks table =
  sources_loop env ((fun tok => (sub, tok)) <$> toks) table.
Proof.
  revert table. induction toks as [|tok toks IH]; intros table; simpl; [done|].
  case_decide; [done|]. destruct (table !! _); [done|]. apply IH.
Qed.

Lemma subjects_loop_sources (env : gmap string string) (subs : list policySubject)
    (table : gmap string policySubject) :
  subjects_loop env subs table = sources_loop env (sources subs) table.
Proof.
  revert table. induction subs as [|sub subs IH]; intros table; [done|].
  unfold sources in *. simpl. rewrite sources_loop_app, tokens_loop_sources.
  destruct (sources_loop env _ table); [done|]. apply IH.
Qed.

(** A source of the flattened document is a token of a subject of it. *)
Lemma elem_of_sources (subs : list policySubject) (sub : policySubject) (tok : policyToken) :
  (sub, tok) ∈ sources subs ↔ sub ∈ subs ∧ tok ∈ policySubject.Tokens sub.
Proof.
  unfold sources. rewrite list_elem_of_bind. split.
  - intros (sub' & Hin & Hsub). apply list_elem_of_fmap in Hin as (tok' & Heq & Htok).
    by simplify_eq.
  - intros [Hsub Htok]. exists sub. split; [|done].
    apply list_elem_of_fmap. by exists tok.
Qed.

(** What a run of the loop to its end says about the sources and about the
    table it leaves. *)
Lemma sources_loop_inr (env : gmap string string)
    (srcs : list (policySubject * policyToken)) (table table' : gmap string policySubject) :
  sources_loop env srcs table = inr table' →
  Forall (fun src => resolve env src ≠ "") srcs ∧
  NoDup (resolve env <$> srcs) ∧
  (∀ src, src ∈ srcs → table !! resolve env src = None) ∧
  (∀ key sub, table' !! key = Some sub ↔
     table !! key = Some sub ∨ ∃ tok, (sub, tok) ∈ srcs ∧ resolve env (sub, tok) = key).
Proof.
  revert table. induction srcs as [|[sub tok] srcs IH]; intros table; simpl.
  - intros [= <-]. repeat split; try constructor.
    + intros src Hin. inversion Hin.
    + tauto.
    + intros [H|(tok & Hin & _)]; [done | inversion Hin].
  - case_decide as Hempty; [done|].
    destruct (table !! Getenv env (EnvVar tok)) eqn:Hfree; [done|].
    intros Hrest. apply IH in Hrest as (Hne & Hnd & Hfresh & Hlook).
    assert (Hnotin : Getenv env (EnvVar tok) ∉ resolve env <$> srcs).
    { intros Hin. apply list_elem_of_fmap in Hin as (src & Heq & Hin).
      specialize (Hfresh src Hin). rewrite <- Heq in Hfresh.
      by rewrite lookup_insert_eq in Hfresh. }
    split; [by constructor|]. split; [by constructor|]. split.
    + intros src Hin. apply elem_of_cons in Hin as [->|Hin]; [done|].
      specialize (Hfresh src Hin).
      destruct (decide (Getenv env (EnvVar tok) = resolve env src)) as [Heq|Hneq].
      * rewrite Heq, lookup_insert_eq in Hfresh. done.
      * by rewrite lookup_insert_ne in Hfresh.
    + intros key sub'. rewrite Hlook. split.
      * intros [Hins|(tok' & Hin & Hres)].
        -- destruct (decide (Getenv env (EnvVar tok) = key)) as [Heq|Hneq].
           ++ rewrite Heq, lookup_insert_eq in Hins. simplify_eq.
              right. exists tok. split; [left|done].
           ++ rewrite lookup_insert_ne in Hins by done. by left.
        -- right. exists tok'. split; [by right|done].
      * intros [Hold|(tok' & Hin & Hres)].
        -- left. rewrite lookup_insert_ne; [done|]. intros <-. congruence.
        -- apply elem_of_cons in Hin as [Heq|Hin].
           ++ simplify_eq. left. unfold resolve. simpl. by rewrite lookup_insert_eq.
           ++ right. by exists tok'.
Qed.

(** A prefix of sources that resolve to non-empty, pairwise distinct values
    absent from the table is inserted whole: the loop reaches what follows. *)
Lemma sources_loop_prefix (env : gmap string string)
    (pre : list (policySubject * policyToken)) (table : gmap string policySubject) :
  Forall (fun src => resolve env src ≠ "") pre →
  NoDup (resolve env <$> pre) →
  (∀ src, src ∈ pre → table !! resolve env src = None) →
  ∃ table', sources_loop env pre table = inr table' ∧
    ∀ key, is_Some (table' !! key) ↔ is_Some (table !! key) ∨ key ∈ resolve env <$> pre.
Proof.
  revert table. induction pre as [|[sub tok] pre IH]; intros table Hne Hnd Hfresh; simpl.
  - exists table. split; [done|]. intros key. split; [by left|].
    intros [H|H]; [done | inversion H].
  - apply Forall_cons in Hne as [Hne1 Hne]. rewrite fmap_cons in Hnd.
    apply NoDup_cons in Hnd as [Hnotin Hnd].
    rewrite decide_False by exact Hne1.
    assert (Hfree : table !! Getenv env (EnvVar tok) = None)
      by (apply (Hfresh (sub, tok)); left).
    rewrite Hfree.
    destruct (IH (<[Getenv env (EnvVar tok) := sub]> table) Hne Hnd) as (table' & Hrun & Hkeys).
    { intros src Hin. rewrite lookup_insert_ne.
      - apply Hfresh. by right.
      - intros Heq. apply Hnotin. apply list_elem_of_fmap. by exists src. }
    exists table'. split; [done|]. intros key. rewrite Hkeys.
    change (resolve env <$> (sub, tok) :: pre)
      with (Getenv env (EnvVar tok) :: (resolve env <$> pre)).
    rewrite elem_of_cons.
    destruct (decide (Getenv env (EnvVar tok) = key)) as [<-|Hneq].
    + rewrite lookup_insert_eq. split; [|by eauto].
      intros _. right. by left.
    + rewrite lookup_insert_ne by done.
      split.
      * intros [H|H]; [by left | right; by right].
      * intros [H|[H|H]]; [by left | by subst | by right].
Qed.

(** The loop stopped at the first source that fails. *)
Lemma sources_loop_first_failure (env : gmap string string)
    (pre post : list (policySubject * policyToken)) (sub : policySubject) (tok : policyToken) :
  Forall (fun src => resolve env src ≠ "") pre →
  NoDup (resolve env <$> pre) →
  sources_loop env (pre ++ (sub, tok) :: post) ∅ =
  if decide (Getenv env (EnvVar tok) = "") then
    inl (Errorf (policySubject.ID sub) (EnvVar tok) ErrMissingValue)
  else if decide (Getenv env (EnvVar tok) ∈ resolve env <$> pre) then
    inl (Errorf (policySubject.ID sub) (EnvVar tok) ErrDuplicateValue)
  else
    match sources_loop env (pre ++ [(sub, tok)]) ∅ with
    | inl err => inl err
    | inr table => sources_loop env post table
    end.
Proof.
  intros Hne Hnd.
  destruct (sources_loop_prefix env pre ∅ Hne Hnd) as (table & Hrun & Hkeys).
  { intros src _. apply lookup_empty. }
  rewrite !sources_loop_app, Hrun. simpl.
  case_decide as Hempty; [done|].
  case_decide as Hdup.
  - assert (is_Some (table !! Getenv env (EnvVar tok))) as [owner ->]; [|done].
    apply Hkeys. by right.
  - destruct (table !! Getenv env (EnvVar tok)) as [owner|] eqn:Hlook; [|done].
    exfalso. assert (is_Some (table !! Getenv env (EnvVar tok))) as Hsome by eauto.
    apply Hkeys in Hsome as [Hsome|Hin]; [|done].
    rewrite lookup_empty in Hsome. by destruct Hsome.
Qed.

(** [newFromPolicy] returns a server or an error, never both and never
    neither. *)
Lemma newFromPolicy_cases (env : gmap string string) (c : policy) (log : list string) :
  (∃ table, sources_loop env (sources (Subjects c)) ∅ = inr table ∧
            newFromPolicy env c log = (Some {| tokens := table; logger := log |}, None)) ∨
  (∃ err, sources_loop env (sources (Subjects c)) ∅ = inl err ∧
          newFromPolicy env c log = (None, Some err)).
Proof.
  unfold newFromPolicy. rewrite subjects_loop_sources.
  destruct (sources_loop env _ ∅) as [err|table]; [right|left]; eauto.
Qed.

(** ** newFromPolicy: the theorems *)

(** C6, as the claim states it, fails: with [TOKEN_A] and [TOKEN_B] set to
    the same value and [TOKEN_B2] not set, the source [TOKEN_B2] of [svc-b]
    resolves to the empty string, and the build fails at [TOKEN_B], which it
    reaches first, with the duplicate-value error. *)
Lemma newFromPolicy_missing_after_duplicate :
  (svc_b, {| EnvVar := "TOKEN_B2" |}) ∈ sources (Subjects two_subjects) ∧
  resolve env_shared_then_missing (svc_b, {| EnvVar := "TOKEN_B2" |}) = "" ∧
  newFromPolicy env_shared_then_missing two_subjects [] =
    (None, Some (Errorf "svc-b" "TOKEN_B" ErrDuplicateValue)) ∧
  newFromPolicy env_shared_then_missing two_subjects [] ≠
    (None, Some (Errorf "svc-b" "TOKEN_B2" ErrMissingValue)).
Proof.
  split; [by_evaluation|]. split; [|split]; vm_compute; [reflexivity..|discriminate].
Qed.

(** C6, amended. When a source resolves to the empty string the build
    fails and returns no server; when moreover every source before it, in
    document order, resolves to a non-empty value and no two of those
    resolve to the same value, the error is the missing-value error with
    that subject's identifier and that source's variable name. *)
Theorem newFromPolicy_missing_value (env : gmap string string) (c : policy)
    (log : list string) (pre post : list (policySubject * policyToken))
    (sub : policySubject) (tok : policyToken) :
  sources (Subjects c) = pre ++ (sub, tok) :: post →
  Getenv env (EnvVar tok) = "" →
  (∃ err, newFromPolicy env c log = (None, Some err)) ∧
  (Forall (fun src => resolve env src ≠ "") pre →
   NoDup (resolve env <$> pre) →
   newFromPolicy env c log =
     (None, Some (Errorf (policySubject.ID sub) (EnvVar tok) ErrMissingValue))).
Proof.
  intros Hsrcs Hempty.
  destruct (newFromPolicy_cases env c log) as [(table & Hrun & _)|(err & Hrun & Hres)].
  - apply sources_loop_inr in Hrun as (Hne & _).
    rewrite Hsrcs in Hne. apply Forall_app in Hne as [_ Hne].
    apply Forall_cons in Hne as [Hne _]. done.
  - split; [by exists err|]. intros Hne Hnd. rewrite Hres. do 2 f_equal.
    rewrite Hsrcs, (sources_loop_first_failure env pre post sub tok Hne Hnd) in Hrun.
    rewrite decide_True in Hrun by done. congruence.
Qed.

Lemma newFromPolicy_missing_value_witness :
  sources (Subjects two_subjects) =
    [(svc_a, {| EnvVar := "TOKEN_A" |})] ++
    (svc_b, {| EnvVar := "TOKEN_B" |}) :: [(svc_b, {| EnvVar := "TOKEN_B2" |})] ∧
  Getenv env_missing "TOKEN_B" = "" ∧
  (∃ err, newFromPolicy env_missing two_subjects [] = (None, Some err)) ∧
  newFromPolicy env_missing two_subjects [] =
    (None, Some (Errorf "svc-b" "TOKEN_B" ErrMissingValue)).
Proof.
  pose proof (newFromPolicy_missing_value env_missing two_subjects []
                [(svc_a, {| EnvVar := "TOKEN_A" |})]
                [(svc_b, {| EnvVar := "TOKEN_B2" |})]
                svc_b {| EnvVar := "TOKEN_B" |} eq_refl eq_refl) as [Hfails Hmissing].
  refine (conj eq_refl (conj eq_refl (conj Hfails (Hmissing _ _)))); by_evaluation.
Defined.

(** C7, as the claim states it, fails: with [TOKEN_A] not set and [TOKEN_B]
    and [TOKEN_B2] set to the same value, two sources resolve to the same
    non-empty value, and the build fails at [TOKEN_A], which it reaches
    first, with the missing-value error. *)
Lemma newFromPolicy_duplicate_after_missing :
  resolve env_missing_then_shared (svc_b, {| EnvVar := "TOKEN_B" |}) = "shared-secret" ∧
  resolve env_missing_then_shared (svc_b, {| EnvVar := "TOKEN_B2" |}) = "shared-secret" ∧
  newFromPolicy env_missing_then_shared two_subjects [] =
    (None, Some (Errorf "svc-a" "TOKEN_A" ErrMissingValue)) ∧
  newFromPolicy env_missing_then_shared two_subjects [] ≠
    (None, Some (Errorf "svc-b" "TOKEN_B2" ErrDuplicateValue)).
Proof.
  split; [|split; [|split]]; vm_compute; [reflexivity..|discriminate].
Qed.

(** C7, amended. When a source resolves to a non-empty value that an
    earlier source, of any subject, also resolves to, the build fails and
    returns no server; when moreover every source before it resolves to a
    non-empty value and no two of those resolve to the same value (it is the
    first source to fail), the error is the duplicate-value error with that
    subject's identifier and that source's variable name. Whenever
    [newFromPolicy] returns an error it returns no server. *)
Theorem newFromPolicy_duplicate_value (env : gmap string string) (c : policy)
    (log : list string) (pre post : list (policySubject * policyToken))
    (sub : policySubject) (tok : policyToken) :
  sources (Subjects c) = pre ++ (sub, tok) :: post →
  Getenv env (EnvVar tok) ≠ "" →
  Getenv env (EnvVar tok) ∈ resolve env <$> pre →
  (∃ err, newFromPolicy env c log = (None, Some err)) ∧
  (Forall (fun src => resolve env src ≠ "") pre →
   NoDup (resolve env <$> pre) →
   newFromPolicy env c log =
     (None, Some (Errorf (policySubject.ID sub) (EnvVar tok) ErrDuplicateValue))) ∧
  (∀ c' log' err, (newFromPolicy env c' log').2 = Some err →
                  (newFromPolicy env c' log').1 = None).
Proof.
  intros Hsrcs Hvalue Hdup. split; [|split].
  - destruct (newFromPolicy_cases env c log) as [(table & Hrun & _)|(err & _ & Hres)];
      [|by exists err].
    apply sources_loop_inr in Hrun as (_ & Hnd & _).
    rewrite Hsrcs, fmap_app, fmap_cons in Hnd.
    apply NoDup_app in Hnd as (_ & Hdisj & _).
    exfalso. apply (Hdisj _ Hdup). left.
  - intros Hne Hnd.
    destruct (newFromPolicy_cases env c log) as [(table & Hrun & _)|(err & Hrun & Hres)];
      rewrite Hsrcs, (sources_loop_first_failure env pre post sub tok Hne Hnd) in Hrun;
      rewrite decide_False, decide_True in Hrun by done; [done|].
    rewrite Hres. congruence.
  - intros c' log' err.
    by destruct (newFromPolicy_cases env c' log') as [(table & _ & ->)|(err' & _ & ->)].
Qed.

Lemma newFromPolicy_duplicate_value_witness :
  sources (Subjects two_subjects) =
    [(svc_a, {| EnvVar := "TOKEN_A" |})] ++
    (svc_b, {| EnvVar := "TOKEN_B" |}) :: [(svc_b, {| EnvVar := "TOKEN_B2" |})] ∧
  Getenv env_shared_then_missing "TOKEN_B" ≠ "" ∧
  Getenv env_shared_then_missing "TOKEN_B" ∈
    resolve env_shared_then_missing <$> [(svc_a, {| EnvVar := "TOKEN_A" |})] ∧
  newFromPolicy env_shared_then_missing two_subjects [] =
    (None, Some (Errorf "svc-b" "TOKEN_B" ErrDuplicateValue)).
Proof.
  assert (Hvalue : Getenv env_shared_then_missing "TOKEN_B" ≠ "") by by_evaluation.
  assert (Hdup : Getenv env_shared_then_missing "TOKEN_B" ∈
                 resolve env_shared_then_missing <$> [(svc_a, {| EnvVar := "TOKEN_A" |})])
    by by_evaluation.
  pose proof (newFromPolicy_duplicate_value env_shared_then_missing two_subjects []
                [(svc_a, {| EnvVar := "TOKEN_A" |})]
                [(svc_b, {| EnvVar := "TOKEN_B2" |})]
                svc_b {| EnvVar := "TOKEN_B" |} eq_refl Hvalue Hdup) as (_ & Hduplicate & _).
  refine (conj eq_refl (conj Hvalue (conj Hdup (Hduplicate _ _)))); by_evaluation.
Defined.

(** ** The handlers: what they leave of the server *)

Lemma AuthenticateSubject_tokens (s : server) (req : authentication.AuthenticateSubjectRequest) :
  tokens (AuthenticateSubject s req).1 = tokens s.
Proof. unfold AuthenticateSubject. simpl. by destruct (tokens s !! _). Qed.

Lemma CheckAccess_tokens (s : server) (req : authorization.CheckAccessRequest) :
  tokens (CheckAccess s req).1 = tokens s.
Proof.
  unfold CheckAccess. simpl. destruct (tokens s !! _); [|done].
  by destruct (CheckAccess_loop _ _).2.
Qed.

Lemma serve_all_tokens (s : server) (rs : list request) :
  tokens (serve_all s rs) = tokens s.
Proof.
  unfold serve_all. revert s. induction rs as [|r rs IH]; intros s; simpl; [done|].
  rewrite IH. destruct r; [apply AuthenticateSubject_tokens | apply CheckAccess_tokens].
Qed.

(** The table of a built server: its keys are the values the sources
    resolve to, each mapped to a subject that declares such a source. *)
Lemma newFromPolicy_table (env : gmap string string) (c : policy) (log : list string)
    (s : server) :
  newFromPolicy env c log = (Some s, None) →
  logger s = log ∧
  ∀ key sub, tokens s !! key = Some sub ↔
    ∃ tok, (sub, tok) ∈ sources (Subjects c) ∧ Getenv env (EnvVar tok) = key.
Proof.
  intros Hbuilt.
  destruct (newFromPolicy_cases env c log) as [(table & Hrun & Hres)|(err & _ & Hres)];
    rewrite Hres in Hbuilt; [|done].
  injection Hbuilt as <-. split; [done|]. simpl.
  apply sources_loop_inr in Hrun as (_ & _ & _ & Hlook).
  intros key sub. rewrite Hlook, lookup_empty. unfold resolve. simpl.
  split; [intros [?|?]; [done|done] | by right].
Qed.

(** ** AuthenticateSubject: the theorems *)

(** C4. On a server built by [newFromPolicy]: a credential that is not a key
    of the table is answered with the Unauthenticated error and no response;
    a credential that is a key is answered with a response, and no error,
    for the subject the table maps it to, which is a subject of the document
    one of whose sources resolves to the credential; in both cases the table
    of the server is left as it was (the handler only hands one message to
    the logger). *)
Theorem AuthenticateSubject_built (env : gmap string string) (c : policy)
    (log : list string) (s : server) (credential : string) :
  newFromPolicy env c log = (Some s, None) →
  (tokens s !! credential = None →
   (AuthenticateSubject s {| authentication.Credential := credential |}).2 =
     (None, Some (status.Errorf codes.Unauthenticated "invalid credential"))) ∧
  (∀ sub, tokens s !! credential = Some sub →
     (AuthenticateSubject s {| authentication.Credential := credential |}).2 =
       (Some {| authentication.SubjectClaims := {[ "sub" := policySubject.ID sub ]} |}, None) ∧
     sub ∈ Subjects c ∧
     ∃ tok, tok ∈ policySubject.Tokens sub ∧ Getenv env (EnvVar tok) = credential) ∧
  tokens (AuthenticateSubject s {| authentication.Credential := credential |}).1 = tokens s ∧
  logger (AuthenticateSubject s {| authentication.Credential := credential |}).1 =
    logger s ++ ["received AuthenticateSubject request"].
Proof.
  intros Hbuilt. apply newFromPolicy_table in Hbuilt as [_ Hlook].
  split; [|split; [|split]].
  - intros Hmiss. unfold AuthenticateSubject. simpl. by rewrite Hmiss.
  - intros sub Hhit. split.
    + unfold AuthenticateSubject. simpl. by rewrite Hhit.
    + apply Hlook in Hhit as (tok & Hin & Hval).
      apply elem_of_sources in Hin as [Hsub Htok]. eauto.
  - apply AuthenticateSubject_tokens.
  - unfold AuthenticateSubject. simpl. by destruct (tokens s !! _).
Qed.

Lemma AuthenticateSubject_built_witness :
  newFromPolicy example_env example_policy [] = (Some example_server, None) ∧
  (AuthenticateSubject example_server {| authentication.Credential := "wrong" |}).2 =
    (None, Some (status.Errorf codes.Unauthenticated "invalid credential")) ∧
  (AuthenticateSubject example_server {| authentication.Credential := "abc123" |}).2 =
    (Some {| authentication.SubjectClaims := {[ "sub" := "svc-a" ]} |}, None).
Proof.
  assert (Hbuilt : newFromPolicy example_env example_policy [] = (Some example_server, None))
    by (vm_compute; reflexivity).
  refine (conj Hbuilt (conj _ _)).
  - refine (proj1 (AuthenticateSubject_built example_env example_policy [] example_server
                     "wrong" Hbuilt) _).
    vm_compute; reflexivity.
  - refine (proj1 (proj1 (proj2 (AuthenticateSubject_built example_env example_policy []
                     example_server "abc123" Hbuilt)) svc_a _)).
    vm_compute; reflexivity.
Defined.

(** C5, as the claim states it, fails: the claim map of the response has no
    key [subject]; its one key is [sub]. *)
Lemma AuthenticateSubject_no_subject_key :
  newFromPolicy example_env example_policy [] = (Some example_server, None) ∧
  (AuthenticateSubject example_server {| authentication.Credential := "abc123" |}).2 =
    (Some {| authentication.SubjectClaims := {[ "sub" := "svc-a" ]} |}, None) ∧
  ({[ "sub" := "svc-a" ]} : gmap string string) !! "subject" = None ∧
  ({[ "sub" := "svc-a" ]} : gmap string string) !! "subject" ≠ Some "svc-a".
Proof.
  split; [|split; [|split]]; vm_compute; [reflexivity..|discriminate].
Qed.

(** C5, amended. On a server built by [newFromPolicy], for a credential that
    is a key of the table, the response's claim map maps the key [sub] to the
    identifier of the subject the table gives, a subject of the document one
    of whose sources resolves to the credential, and has no other key. *)
Theorem AuthenticateSubject_claims (env : gmap string string) (c : policy)
    (log : list string) (s : server) (credential : string) (sub : policySubject) :
  newFromPolicy env c log = (Some s, None) →
  tokens s !! credential = Some sub →
  ∃ resp,
    (AuthenticateSubject s {| authentication.Credential := credential |}).2 = (Some resp, None) ∧
    authentication.SubjectClaims resp !! "sub" = Some (policySubject.ID sub) ∧
    (∀ key, key ≠ "sub" → authentication.SubjectClaims resp !! key = None) ∧
    sub ∈ Subjects c ∧
    ∃ tok, tok ∈ policySubject.Tokens sub ∧ Getenv env (EnvVar tok) = credential.
Proof.
  intros Hbuilt Hhit. eexists. split; [|split; [|split]].
  - unfold AuthenticateSubject. simpl. by rewrite Hhit.
  - simpl. apply lookup_singleton_eq.
  - intros key Hkey. simpl. by apply lookup_singleton_ne.
  - apply newFromPolicy_table in Hbuilt as [_ Hlook].
    apply Hlook in Hhit as (tok & Hin & Hval).
    apply elem_of_sources in Hin as [Hsub Htok]. eauto.
Qed.

Lemma AuthenticateSubject_claims_witness :
  newFromPolicy example_env example_policy [] = (Some example_server, None) ∧
  tokens example_server !! "abc123" = Some svc_a ∧
  ∃ resp,
    (AuthenticateSubject example_server {| authentication.Credential := "abc123" |}).2 =
      (Some resp, None) ∧
    authentication.SubjectClaims resp !! "sub" = Some "svc-a" ∧
    (∀ key, key ≠ "sub" → authentication.SubjectClaims resp !! key = None) ∧
    svc_a ∈ Subjects example_policy ∧
    ∃ tok, tok ∈ policySubject.Tokens svc_a ∧ Getenv example_env (EnvVar tok) = "abc123".
Proof.
  assert (Hbuilt : newFromPolicy example_env example_policy [] = (Some example_server, None))
    by (vm_compute; reflexivity).
  assert (Hhit : tokens example_server !! "abc123" = Some svc_a)
    by (vm_compute; reflexivity).
  exact (conj Hbuilt (conj Hhit
    (AuthenticateSubject_claims example_env example_policy [] example_server "abc123" svc_a
       Hbuilt Hhit))).
Defined.

(** ** CheckAccess: the loop over the pairs *)

Lemma CheckAccess_loop_all_granted (sub : policySubject)
    (pairs : list authorization.CheckAccessRequest_Action) :
  Forall (fun pair => granted sub pair = true) pairs →
  CheckAccess_loop sub pairs = (pairs, None).
Proof.
  induction 1 as [|pair pairs Hpair _ IH]; simpl; [done|].
  unfold granted in Hpair. by rewrite Hpair, IH.
Qed.

Lemma CheckAccess_loop_first_denied (sub : policySubject)
    (pre post : list authorization.CheckAccessRequest_Action)
    (pair : authorization.CheckAccessRequest_Action) :
  Forall (fun pair' => granted sub pair' = true) pre →
  granted sub pair = false →
  CheckAccess_loop sub (pre ++ pair :: post) = (pre ++ [pair], Some (denied pair)).
Proof.
  intros Hpre Hpair. induction Hpre as [|pair' pre Hpair' _ IH]; simpl.
  - unfold granted in Hpair. by rewrite Hpair.
  - unfold granted in Hpair'. by rewrite Hpair', IH.
Qed.

(** A batch that is not granted whole has a first pair that is not. *)
Lemma first_denied (sub : policySubject) (pairs : list authorization.CheckAccessRequest_Action) :
  ¬ Forall (fun pair => granted sub pair = true) pairs →
  ∃ pre pair post,
    pairs = pre ++ pair :: post ∧
    Forall (fun pair' => granted sub pair' = true) pre ∧
    granted sub pair = false.
Proof.
  induction pairs as [|pair pairs IH]; intros Hnot.
  - destruct Hnot. constructor.
  - destruct (granted sub pair) eqn:Hpair.
    + destruct IH as (pre & pair' & post & -> & Hpre & Hpair').
      { intros Hall. apply Hnot. by constructor. }
      exists (pair :: pre), pair', post. repeat split; [|done]. by constructor.
    + by exists [], pair, pairs.
Qed.

Lemma CheckAccess_authenticated (s : server) (req : authorization.CheckAccessRequest)
    (sub : policySubject) :
  tokens s !! authorization.Credential req = Some sub →
  (CheckAccess s req).2 =
    match (CheckAccess_loop sub (authorization.Actions req)).2 with
    | Some err => (None, Some err)
    | None => (Some authorization.mkResponse, None)
    end.
Proof.
  intros Hhit. unfold CheckAccess. simpl. rewrite Hhit.
  by destruct (CheckAccess_loop _ _).2.
Qed.

(** ** CheckAccess: the theorems *)

(** C8. For a request whose credential is a key of the table: the request
    succeeds, with the empty response and no error, exactly when
    [checkAccess] is [true] for every pair; otherwise there is a first pair,
    in the order of the request, for which [checkAccess] is [false]. At that
    pair the request fails with the PermissionDenied error whose message is
    the sentence below with the pair's action and resource identifier in it,
    [checkAccess] was called on the pairs up to and including that one and
    on no pair after it, and the outcome is the same whatever follows that
    pair. *)
Theorem CheckAccess_batch (s : server) (req : authorization.CheckAccessRequest)
    (sub : policySubject) :
  tokens s !! authorization.Credential req = Some sub →
  ((CheckAccess s req).2 = (Some authorization.mkResponse, None) ↔
   Forall (fun pair => granted sub pair = true) (authorization.Actions req)) ∧
  (¬ Forall (fun pair => granted sub pair = true) (authorization.Actions req) →
   ∃ pre pair post,
     authorization.Actions req = pre ++ pair :: post ∧
     Forall (fun pair' => granted sub pair' = true) pre ∧
     granted sub pair = false) ∧
  (∀ pre pair post,
     authorization.Actions req = pre ++ pair :: post →
     Forall (fun pair' => granted sub pair' = true) pre →
     granted sub pair = false →
     (CheckAccess s req).2 =
       (None, Some (status.Errorf codes.PermissionDenied
          ("subject does not have permission to perform '" ++ authorization.Action pair ++
           "' on resource '" ++ authorization.ResourceId pair ++ "'")%string)) ∧
     (CheckAccess_loop sub (authorization.Actions req)).1 = pre ++ [pair] ∧
     ∀ post',
       (CheckAccess s {| authorization.Credential := authorization.Credential req;
                         authorization.Actions := pre ++ pair :: post' |}).2 =
       (None, Some (status.Errorf codes.PermissionDenied
          ("subject does not have permission to perform '" ++ authorization.Action pair ++
           "' on resource '" ++ authorization.ResourceId pair ++ "'")%string))).
Proof.
  intros Hhit. split; [|split].
  - rewrite (CheckAccess_authenticated s req sub Hhit). split.
    + intros Hok.
      destruct (decide (Forall (fun pair => granted sub pair = true)
                          (authorization.Actions req))) as [|Hnot]; [done|].
      apply first_denied in Hnot as (pre & pair & post & Hreq & Hpre & Hpair).
      rewrite Hreq, (CheckAccess_loop_first_denied sub pre post pair Hpre Hpair) in Hok.
      done.
    + intros Hall. by rewrite CheckAccess_loop_all_granted.
  - intros Hnot.
    apply first_denied in Hnot as (pre & pair & post & Hreq & Hpre & Hpair).
    by exists pre, pair, post.
  - intros pre pair post Hreq Hpre Hpair. split; [|split].
    + rewrite (CheckAccess_authenticated s req sub Hhit), Hreq.
      by rewrite (CheckAccess_loop_first_denied sub pre post pair Hpre Hpair).
    + by rewrite Hreq, (CheckAccess_loop_first_denied sub pre post pair Hpre Hpair).
    + intros post'. rewrite (CheckAccess_authenticated _ _ sub) by exact Hhit. simpl.
      by rewrite (CheckAccess_loop_first_denied sub pre post' pair Hpre Hpair).
Qed.

Lemma CheckAccess_batch_witness :
  tokens server_b !! "def456" = Some svc_b ∧
  example_batch =
    [ {| authorization.Action := "read"; authorization.ResourceId := "db1" |} ] ++
    {| authorization.Action := "write"; authorization.ResourceId := "db1" |} ::
    [ {| authorization.Action := "delete"; authorization.ResourceId := "queue" |} ] ∧
  Forall (fun pair => granted svc_b pair = true)
    [ {| authorization.Action := "read"; authorization.ResourceId := "db1" |} ] ∧
  granted svc_b {| authorization.Action := "write"; authorization.ResourceId := "db1" |} = false ∧
  (CheckAccess server_b {| authorization.Credential := "def456";
                           authorization.Actions := example_batch |}).2 =
    (None, Some (status.Errorf codes.PermissionDenied
       "subject does not have permission to perform 'write' on resource 'db1'")) ∧
  (CheckAccess_loop svc_b example_batch).1 =
    [ {| authorization.Action := "read"; authorization.ResourceId := "db1" |};
      {| authorization.Action := "write"; authorization.ResourceId := "db1" |} ].
Proof.
  assert (Hhit : tokens server_b !! "def456" = Some svc_b) by (vm_compute; reflexivity).
  assert (Hpre : Forall (fun pair => granted svc_b pair = true)
            [ {| authorization.Action := "read"; authorization.ResourceId := "db1" |} ])
    by (repeat constructor).
  assert (Hpair : granted svc_b
            {| authorization.Action := "write"; authorization.ResourceId := "db1" |} = false)
    by (vm_compute; reflexivity).
  pose proof (proj2 (proj2 (CheckAccess_batch server_b
    {| authorization.Credential := "def456"; authorization.Actions := example_batch |}
    svc_b Hhit))
    [ {| authorization.Action := "read"; authorization.ResourceId := "db1" |} ]
    {| authorization.Action := "write"; authorization.ResourceId := "db1" |}
    [ {| authorization.Action := "delete"; authorization.ResourceId := "queue" |} ]
    eq_refl Hpre Hpair) as (Hdenied & Hcalled & _).
  exact (conj Hhit (conj eq_refl (conj Hpre (conj Hpair (conj Hdenied Hcalled))))).
Defined.

(** The batch of the example is denied at its second pair, and the third is
    not reached. *)
Example CheckAccess_example_batch :
  (CheckAccess server_b {| authorization.Credential := "def456";
                           authorization.Actions := example_batch |}).2 =
    (None, Some (status.Errorf codes.PermissionDenied
       "subject does not have permission to perform 'write' on resource 'db1'")) ∧
  (CheckAccess_loop svc_b example_batch).1 = take 2 example_batch.
Proof. split; vm_compute; reflexivity. Qed.

(** C9. A request whose credential is a key of the table and whose sequence
    of pairs is empty succeeds, with the empty response and no error,
    whatever the subject is granted. *)
Theorem CheckAccess_empty_batch (s : server) (credential : string) (sub : policySubject) :
  tokens s !! credential = Some sub →
  (CheckAccess s {| authorization.Credential := credential; authorization.Actions := [] |}).2 =
    (Some authorization.mkResponse, None).
Proof.
  intros Hhit. by rewrite (CheckAccess_authenticated _ _ sub) by exact Hhit.
Qed.

Lemma CheckAccess_empty_batch_witness :
  tokens example_server !! "abc123" = Some svc_a ∧
  (CheckAccess example_server
     {| authorization.Credential := "abc123"; authorization.Actions := [] |}).2 =
    (Some authorization.mkResponse, None).
Proof.
  assert (Hhit : tokens example_server !! "abc123" = Some svc_a) by (vm_compute; reflexivity).
  exact (conj Hhit (CheckAccess_empty_batch example_server "abc123" svc_a Hhit)).
Defined.

(** ** The table of a built server *)

(** C10. The table of a server built by [newFromPolicy] has no empty key;
    after any sequence of requests the table is the one that was built, and
    [AuthenticateSubject] with the empty credential is answered with the
    Unauthenticated error. *)
Theorem built_table_nonempty_keys (env : gmap string string) (c : policy)
    (log : list string) (s : server) :
  newFromPolicy env c log = (Some s, None) →
  (∀ key, is_Some (tokens s !! key) → key ≠ "") ∧
  ∀ rs : list request,
    tokens (serve_all s rs) = tokens s ∧
    (AuthenticateSubject (serve_all s rs) {| authentication.Credential := "" |}).2 =
      (None, Some (status.Errorf codes.Unauthenticated "invalid credential")).
Proof.
  intros Hbuilt.
  assert (Hkeys : ∀ key, is_Some (tokens s !! key) → key ≠ "").
  { destruct (newFromPolicy_cases env c log) as [(table & Hrun & Hres)|(err & _ & Hres)];
      rewrite Hres in Hbuilt; [|done].
    injection Hbuilt as <-. simpl.
    apply sources_loop_inr in Hrun as (Hne & _ & _ & Hlook).
    intros key [sub Hsub]. apply Hlook in Hsub as [Hsub|(tok & Hin & <-)].
    - by rewrite lookup_empty in Hsub.
    - by apply (proj1 (Forall_forall _ _) Hne (sub, tok)). }
  split; [done|]. intros rs. split; [apply serve_all_tokens|].
  unfold AuthenticateSubject. simpl. rewrite serve_all_tokens.
  destruct (tokens s !! "") as [sub|] eqn:Hlook; [|done].
  exfalso. by apply (Hkeys ""); [eexists|].
Qed.

Lemma built_table_nonempty_keys_witness :
  newFromPolicy env_distinct two_subjects [] =
    (Some {| tokens := {[ "abc123" := svc_a; "def456" := svc_b; "ghi789" := svc_b ]};
             logger := [] |}, None) ∧
  (AuthenticateSubject
     (serve_all {| tokens := {[ "abc123" := svc_a; "def456" := svc_b; "ghi789" := svc_b ]};
                   logger := [] |}
        [ReqAuthenticateSubject {| authentication.Credential := "abc123" |};
         ReqCheckAccess {| authorization.Credential := "def456";
                           authorization.Actions := example_batch |}])
     {| authentication.Credential := "" |}).2 =
    (None, Some (status.Errorf codes.Unauthenticated "invalid credential")).
Proof.
  assert (Hbuilt : newFromPolicy env_distinct two_subjects [] =
    (Some {| tokens := {[ "abc123" := svc_a; "def456" := svc_b; "ghi789" := svc_b ]};
             logger := [] |}, None)) by (vm_compute; reflexivity).
  exact (conj Hbuilt (proj2 (proj2 (built_table_nonempty_keys env_distinct two_subjects [] _
    Hbuilt) _))).
Defined.

(** ** checkAccess on any resource list *)

(** What the first loop of [checkAccess] leaves: the state it started from
    when no candidate matches, and otherwise the last candidate that does. *)
Lemma scan_result (resourceID : string) (rs : list policyResource)
    (st : policyResource * bool) :
  (Forall (fun r => policyResource.ID r ≠ resourceID) rs ∧
   foldl (scan_step resourceID) st rs = st) ∨
  (∃ pre r post, rs = pre ++ r :: post ∧ policyResource.ID r = resourceID ∧
     Forall (fun r' => policyResource.ID r' ≠ resourceID) post ∧
     foldl (scan_step resourceID) st rs = (r, true)).
Proof.
  induction rs as [|r rs IH] using rev_ind.
  - left. by split.
  - rewrite foldl_app. simpl. unfold scan_step at 1 3.
    destruct (decide (policyResource.ID r = resourceID)) as [Heq|Hneq].
    + right. exists rs, r, []. by repeat split.
    + destruct IH as [[Hall Hst]|(pre & r' & post & -> & Hr' & Hpost & Hst)].
      * left. split; [|done]. apply Forall_app. split; [done|]. by constructor.
      * right. exists pre, r', (post ++ [r]). rewrite <- app_assoc. repeat split; try done.
        apply Forall_app. split; [done|]. by constructor.
Qed.

(** X1. [checkAccess] is [true] exactly when some entry of the subject
    carries [resourceID], and the last such entry lists the action; so it
    never grants an action on a resource unless an entry for that resource
    lists it. *)
Theorem checkAccess_true_iff (sub : policySubject) (action resourceID : string) :
  checkAccess sub action resourceID = true ↔
  ∃ pre r post,
    policySubject.Resources sub = pre ++ r :: post ∧
    policyResource.ID r = resourceID ∧
    Forall (fun r' => policyResource.ID r' ≠ resourceID) post ∧
    action ∈ policyResource.Actions r.
Proof.
  split.
  - unfold checkAccess.
    destruct (scan_result resourceID (policySubject.Resources sub) (policyResource.zero, false))
      as [[_ ->]|(pre & r & post & Hres & Hr & Hpost & ->)]; simpl; [done|].
    intros Hact. exists pre, r, post. repeat split; try done.
    by apply scan_actions_elem_of.
  - intros (pre & r & post & Hres & Hr & Hpost & Hact).
    rewrite (checkAccess_last sub action resourceID pre post r Hres Hr Hpost).
    by apply scan_actions_elem_of.
Qed.

(** X2. Appending an entry to a subject's resources: decisions about the
    appended entry's identifier become membership in its action list,
    whatever earlier entries said, and decisions about every other
    identifier are unchanged. *)
Theorem checkAccess_append_resource (id : string) (toks : list policyToken)
    (rs : list policyResource) (r : policyResource) (action resourceID : string) :
  checkAccess (policySubject.mk id toks (rs ++ [r])) action resourceID =
  if decide (policyResource.ID r = resourceID)
  then bool_decide (action ∈ policyResource.Actions r)
  else checkAccess (policySubject.mk id toks rs) action resourceID.
Proof.
  unfold checkAccess. simpl. rewrite foldl_app. simpl. unfold scan_step at 1.
  case_decide as Hr; [|done]. simpl.
  destruct (scan_actions action (policyResource.Actions r)) eqn:Hscan; symmetry.
  - apply bool_decide_eq_true. by apply scan_actions_elem_of.
  - apply bool_decide_eq_false. intros Hin. apply scan_actions_elem_of in Hin. congruence.
Qed.

(** ** CheckAccess on any server *)

Lemma CheckAccess_loop_error (sub : policySubject)
    (pairs : list authorization.CheckAccessRequest_Action) (err : status.Status) :
  (CheckAccess_loop sub pairs).2 = Some err →
  ∃ pair, pair ∈ pairs ∧ granted sub pair = false ∧ err = denied pair.
Proof.
  induction pairs as [|pair pairs IH]; simpl; [done|].
  destruct (checkAccess sub _ _) eqn:Hpair.
  - destruct (CheckAccess_loop sub pairs) as [called err'] eqn:Hloop. simpl.
    intros Herr. destruct (IH Herr) as (pair' & Hin & Hdenied & ->).
    exists pair'. split; [by right|done].
  - simpl. intros [= <-]. exists pair. split; [left|done].
Qed.

(** X3. [CheckAccess] answers with the Unauthenticated error exactly when
    the credential is not a key of the table, which is exactly when
    [AuthenticateSubject] answers the same credential with that error; the
    pairs of the request play no part. *)
Theorem CheckAccess_unauthenticated_iff (s : server) (credential : string)
    (pairs : list authorization.CheckAccessRequest_Action) :
  (authorize s credential pairs = (None, Some invalid_credential) ↔
   tokens s !! credential = None) ∧
  (authorize s credential pairs = (None, Some invalid_credential) ↔
   authenticate s credential = (None, Some invalid_credential)).
Proof.
  assert (Hauthz : authorize s credential pairs = (None, Some invalid_credential) ↔
                   tokens s !! credential = None).
  { unfold authorize, CheckAccess. simpl.
    destruct (tokens s !! credential) as [sub|] eqn:Hlook; [|done].
    destruct (CheckAccess_loop sub pairs).2 as [err|] eqn:Hloop; simpl; [|done].
    apply CheckAccess_loop_error in Hloop as (pair & _ & _ & ->).
    split; [intros [= ?]|done]. }
  split; [done|]. rewrite Hauthz.
  unfold authenticate, AuthenticateSubject. simpl.
  by destruct (tokens s !! credential).
Qed.

(** X4. Every answer of [CheckAccess] is the empty response without an
    error, or an error without a response; the error is the Unauthenticated
    one, for a credential that is not a key of the table, or the
    PermissionDenied one whose message is the sentence below with the action
    and resource identifier of a pair of the request that the subject of the
    credential is not granted. *)
Theorem CheckAccess_answers (s : server) (credential : string)
    (pairs : list authorization.CheckAccessRequest_Action) :
  authorize s credential pairs = (Some authorization.mkResponse, None) ∨
  (authorize s credential pairs = (None, Some invalid_credential) ∧
   tokens s !! credential = None) ∨
  (∃ sub pair,
     tokens s !! credential = Some sub ∧ pair ∈ pairs ∧ granted sub pair = false ∧
     authorize s credential pairs =
       (None, Some (status.Errorf codes.PermissionDenied
          ("subject does not have permission to perform '" ++ authorization.Action pair ++
           "' on resource '" ++ authorization.ResourceId pair ++ "'")%string))).
Proof.
  unfold authorize, CheckAccess. simpl.
  destruct (tokens s !! credential) as [sub|] eqn:Hlook; [|by right; left].
  destruct (CheckAccess_loop sub pairs).2 as [err|] eqn:Hloop; simpl; [|by left].
  apply CheckAccess_loop_error in Hloop as (pair & Hin & Hdenied & ->).
  right. right. by exists sub, pair.
Qed.

Lemma CheckAccess_loop_app (sub : policySubject)
    (front back : list authorization.CheckAccessRequest_Action) :
  (CheckAccess_loop sub (front ++ back)).2 =
  match (CheckAccess_loop sub front).2 with
  | Some err => Some err
  | None => (CheckAccess_loop sub back).2
  end.
Proof.
  induction front as [|pair front IH]; simpl; [done|].
  destruct (checkAccess sub _ _); [|done].
  destruct (CheckAccess_loop sub (front ++ back)) as [called err].
  destruct (CheckAccess_loop sub front) as [called' err']. done.
Qed.

(** X5. A batch that is two batches one after the other: when the first is
    answered with the empty response, the answer is that of the second;
    otherwise it is the error of the first. *)
Theorem CheckAccess_concatenation (s : server) (credential : string)
    (front back : list authorization.CheckAccessRequest_Action) :
  authorize s credential (front ++ back) =
  match authorize s credential front with
  | (Some _, None) => authorize s credential back
  | answer => answer
  end.
Proof.
  unfold authorize, CheckAccess. simpl.
  destruct (tokens s !! credential) as [sub|]; [|done].
  rewrite CheckAccess_loop_app.
  by destruct (CheckAccess_loop sub front).2.
Qed.

(** X17. Whether a batch is answered with the empty response does not
    depend on the order of its pairs: two requests with the same credential
    and the same pairs in different orders are both allowed or both refused
    (the pair a refusal names may differ). *)
Theorem CheckAccess_pair_order (s : server) (credential : string)
    (pairs pairs' : list authorization.CheckAccessRequest_Action) :
  pairs ≡ₚ pairs' →
  authorize s credential pairs = (Some authorization.mkResponse, None) ↔
  authorize s credential pairs' = (Some authorization.mkResponse, None).
Proof.
  intros Hperm. unfold authorize, CheckAccess. simpl.
  destruct (tokens s !! credential) as [sub|]; [|done].
  assert (Hall : ∀ l, (CheckAccess_loop sub l).2 = None ↔
                      Forall (fun pair => granted sub pair = true) l).
  { intros l. split.
    - intros Hok.
      destruct (decide (Forall (fun pair => granted sub pair = true) l)) as [|Hnot]; [done|].
      apply first_denied in Hnot as (pre & pair & post & -> & Hpre & Hpair).
      by rewrite (CheckAccess_loop_first_denied sub pre post pair Hpre Hpair) in Hok.
    - intros Hgranted. by rewrite CheckAccess_loop_all_granted. }
  destruct (CheckAccess_loop sub pairs).2 eqn:H1, (CheckAccess_loop sub pairs').2 eqn:H2;
    try done.
  - apply Hall in H2. rewrite <- Hperm in H2. apply Hall in H2. congruence.
  - apply Hall in H1. rewrite Hperm in H1. apply Hall in H1. congruence.
Qed.

Lemma CheckAccess_pair_order_witness :
  granted_batch ≡ₚ granted_batch_swapped ∧
  (authorize server_b "def456" granted_batch = (Some authorization.mkResponse, None) ↔
   authorize server_b "def456" granted_batch_swapped = (Some authorization.mkResponse, None)).
Proof.
  assert (Hperm : granted_batch ≡ₚ granted_batch_swapped) by apply perm_swap.
  exact (conj Hperm (CheckAccess_pair_order server_b "def456" _ _ Hperm)).
Defined.

(** ** The server over a sequence of requests *)

Lemma answers_of_tokens (s s' : server) :
  tokens s' = tokens s →
  (∀ credential, authenticate s' credential = authenticate s credential) ∧
  (∀ credential pairs, authorize s' credential pairs = authorize s credential pairs).
Proof.
  intros Heq. split; intros credential.
  - unfold authenticate, AuthenticateSubject. simpl. rewrite Heq.
    by destruct (tokens s !! credential).
  - intros pairs. unfold authorize, CheckAccess. simpl. rewrite Heq.
    destruct (tokens s !! credential) as [sub|]; [|done].
    by destruct (CheckAccess_loop sub pairs).2.
Qed.

(** X6. The answer to a request does not depend on the requests the server
    has handled before it: after any sequence of requests, both handlers
    answer as the server did at first. *)
Theorem answers_independent_of_history (s : server) (rs : list request) (credential : string)
    (pairs : list authorization.CheckAccessRequest_Action) :
  authenticate (serve_all s rs) credential = authenticate s credential ∧
  authorize (serve_all s rs) credential pairs = authorize s credential pairs.
Proof.
  destruct (answers_of_tokens s (serve_all s rs) (serve_all_tokens s rs)) as [Hauthn Hauthz].
  by split.
Qed.

(** X7. Each request handled hands exactly one message to the logger, the
    one of its handler, whether the request is answered with a response or
    with an error: after a sequence of requests the logger holds what it held
    plus one message per request, in order. *)
Theorem serve_all_logger (s : server) (rs : list request) :
  logger (serve_all s rs) = logger s ++ (received <$> rs).
Proof.
  unfold serve_all. revert s. induction rs as [|r rs IH]; intros s; simpl.
  - by rewrite app_nil_r.
  - rewrite IH, cons_middle, app_assoc. f_equal.
    destruct r as [req|req]; simpl.
    + unfold AuthenticateSubject. simpl. by destruct (tokens s !! _).
    + unfold CheckAccess. simpl. destruct (tokens s !! _); [|done].
      by destruct (CheckAccess_loop _ _).2.
Qed.

(** ** newFromPolicy: when it succeeds, and what it builds *)

Lemma sources_loop_succeeds (env : gmap string string)
    (srcs : list (policySubject * policyToken)) :
  (∃ table, sources_loop env srcs ∅ = inr table) ↔
  Forall (fun src => resolve env src ≠ "") srcs ∧ NoDup (resolve env <$> srcs).
Proof.
  split.
  - intros [table Hrun]. apply sources_loop_inr in Hrun as (Hne & Hnd & _). done.
  - intros [Hne Hnd].
    destruct (sources_loop_prefix env srcs ∅ Hne Hnd) as (table & Hrun & _).
    + intros src _. apply lookup_empty.
    + by exists table.
Qed.

(** X8. [newFromPolicy] returns a server exactly when every source of the
    document resolves to a non-empty value and no two sources, of one subject
    or of two, resolve to the same value. *)
Theorem newFromPolicy_succeeds_iff (env : gmap string string) (c : policy) (log : list string) :
  (∃ s, newFromPolicy env c log = (Some s, None)) ↔
  Forall (fun src => resolve env src ≠ "") (sources (Subjects c)) ∧
  NoDup (resolve env <$> sources (Subjects c)).
Proof.
  rewrite <- sources_loop_succeeds.
  destruct (newFromPolicy_cases env c log) as [(table & Hrun & ->)|(err & Hrun & ->)];
    rewrite Hrun.
  - split; eauto.
  - split; [intros [s [=]] | intros [table [=]]].
Qed.

(** X9. On a server built from a document, every token of every subject
    works: the value its variable resolves to is a key of the table for that
    subject, [AuthenticateSubject] answers it with that subject's identifier,
    and [CheckAccess] answers it with the empty response exactly when
    [checkAccess] grants that subject every pair of the request. *)
Theorem built_server_serves_every_token (env : gmap string string) (c : policy)
    (log : list string) (s : server) (sub : policySubject) (tok : policyToken)
    (pairs : list authorization.CheckAccessRequest_Action) :
  newFromPolicy env c log = (Some s, None) →
  sub ∈ Subjects c →
  tok ∈ policySubject.Tokens sub →
  tokens s !! Getenv env (EnvVar tok) = Some sub ∧
  authenticate s (Getenv env (EnvVar tok)) =
    (Some {| authentication.SubjectClaims := {[ "sub" := policySubject.ID sub ]} |}, None) ∧
  (authorize s (Getenv env (EnvVar tok)) pairs = (Some authorization.mkResponse, None) ↔
   Forall (fun pair => granted sub pair = true) pairs).
Proof.
  intros Hbuilt Hsub Htok.
  apply newFromPolicy_table in Hbuilt as [_ Hlook].
  assert (Hhit : tokens s !! Getenv env (EnvVar tok) = Some sub).
  { apply Hlook. exists tok. split; [|done]. by apply elem_of_sources. }
  split; [done|]. split.
  - unfold authenticate, AuthenticateSubject. simpl. by rewrite Hhit.
  - unfold authorize. rewrite (CheckAccess_authenticated _ _ sub) by exact Hhit. simpl.
    split.
    + intros Hok.
      destruct (decide (Forall (fun pair => granted sub pair = true) pairs)) as [|Hnot];
        [done|].
      apply first_denied in Hnot as (pre & pair & post & -> & Hpre & Hpair).
      by rewrite (CheckAccess_loop_first_denied sub pre post pair Hpre Hpair) in Hok.
    + intros Hall. by rewrite CheckAccess_loop_all_granted.
Qed.

Lemma built_server_serves_every_token_witness :
  newFromPolicy env_distinct two_subjects [] =
    (Some {| tokens := {[ "abc123" := svc_a; "def456" := svc_b; "ghi789" := svc_b ]};
             logger := [] |}, None) ∧
  svc_b ∈ Subjects two_subjects ∧
  {| EnvVar := "TOKEN_B2" |} ∈ policySubject.Tokens svc_b ∧
  authenticate {| tokens := {[ "abc123" := svc_a; "def456" := svc_b; "ghi789" := svc_b ]};
                  logger := [] |} (Getenv env_distinct "TOKEN_B2") =
    (Some {| authentication.SubjectClaims := {[ "sub" := "svc-b" ]} |}, None).
Proof.
  assert (Hbuilt : newFromPolicy env_distinct two_subjects [] =
    (Some {| tokens := {[ "abc123" := svc_a; "def456" := svc_b; "ghi789" := svc_b ]};
             logger := [] |}, None)) by (vm_compute; reflexivity).
  assert (Hsub : svc_b ∈ Subjects two_subjects) by by_evaluation.
  assert (Htok : {| EnvVar := "TOKEN_B2" |} ∈ policySubject.Tokens svc_b) by by_evaluation.
  exact (conj Hbuilt (conj Hsub (conj Htok (proj1 (proj2
    (built_server_serves_every_token env_distinct two_subjects [] _ svc_b
       {| EnvVar := "TOKEN_B2" |} example_batch Hbuilt Hsub Htok)))))).
Defined.

Lemma sources_loop_size (env : gmap string string)
    (srcs : list (policySubject * policyToken)) (table table' : gmap string policySubject) :
  sources_loop env srcs table = inr table' →
  size table' = size table + length srcs.
Proof.
  revert table. induction srcs as [|[sub tok] srcs IH]; intros table; simpl.
  - intros [= <-]. lia.
  - case_decide; [done|].
    destruct (table !! Getenv env (EnvVar tok)) eqn:Hfree; [done|].
    intros Hrun. rewrite (IH _ Hrun), map_size_insert_None by done. lia.
Qed.

Lemma length_sources (subs : list policySubject) :
  length (sources subs) = sum_list ((fun sub => length (policySubject.Tokens sub)) <$> subs).
Proof.
  induction subs as [|sub subs IH]; [done|].
  change (sources (sub :: subs))
    with (((fun tok => (sub, tok)) <$> policySubject.Tokens sub) ++ sources subs).
  by rewrite length_app, length_fmap, IH.
Qed.

(** X10. The table of a built server has one key per token of the
    document: its size is the sum of the subjects' token counts. *)
Theorem built_table_size (env : gmap string string) (c : policy) (log : list string)
    (s : server) :
  newFromPolicy env c log = (Some s, None) →
  size (tokens s) = sum_list ((fun sub => length (policySubject.Tokens sub)) <$> Subjects c).
Proof.
  intros Hbuilt.
  destruct (newFromPolicy_cases env c log) as [(table & Hrun & Hres)|(err & _ & Hres)];
    rewrite Hres in Hbuilt; [|done].
  injection Hbuilt as <-. simpl.
  by rewrite (sources_loop_size _ _ _ _ Hrun), map_size_empty, length_sources.
Qed.

Lemma built_table_size_witness :
  newFromPolicy env_distinct two_subjects [] =
    (Some {| tokens := {[ "abc123" := svc_a; "def456" := svc_b; "ghi789" := svc_b ]};
             logger := [] |}, None) ∧
  size ({[ "abc123" := svc_a; "def456" := svc_b; "ghi789" := svc_b ]}
          : gmap string policySubject) = 3.
Proof.
  assert (Hbuilt : newFromPolicy env_distinct two_subjects [] =
    (Some {| tokens := {[ "abc123" := svc_a; "def456" := svc_b; "ghi789" := svc_b ]};
             logger := [] |}, None)) by (vm_compute; reflexivity).
  exact (conj Hbuilt (built_table_size env_distinct two_subjects [] _ Hbuilt)).
Defined.

(** X11. The order of the subjects in the document does not matter to a
    build that succeeds: a document with the same subjects in another order
    builds the same server. *)
Theorem newFromPolicy_subject_order (env : gmap string string) (c c' : policy)
    (log : list string) (s : server) :
  Subjects c ≡ₚ Subjects c' →
  newFromPolicy env c log = (Some s, None) →
  newFromPolicy env c' log = (Some s, None).
Proof.
  intros Hperm Hbuilt.
  assert (Hsrcs : sources (Subjects c) ≡ₚ sources (Subjects c'))
    by (unfold sources; by rewrite Hperm).
  assert (∃ s', newFromPolicy env c' log = (Some s', None)) as [s' Hbuilt'].
  { assert (∃ table, sources_loop env (sources (Subjects c')) ∅ = inr table)
      as [table' Hrun'].
    { apply sources_loop_succeeds. rewrite <- Hsrcs. apply sources_loop_succeeds.
      destruct (newFromPolicy_cases env c log) as [(table & Hrun & _)|(err & _ & Hres)];
        [by exists table | by rewrite Hres in Hbuilt]. }
    destruct (newFromPolicy_cases env c' log) as [(table & _ & Hres)|(err & Hrun & _)];
      [by eexists | by rewrite Hrun in Hrun']. }
  rewrite Hbuilt'. do 2 f_equal.
  apply newFromPolicy_table in Hbuilt as [Hlog Hlook].
  apply newFromPolicy_table in Hbuilt' as [Hlog' Hlook'].
  destruct s as [table l], s' as [table' l']. simpl in *. f_equal; [|congruence].
  apply map_eq. intros key. apply option_eq. intros sub.
  rewrite Hlook, Hlook'. by setoid_rewrite Hsrcs.
Qed.

Lemma newFromPolicy_subject_order_witness :
  Subjects two_subjects ≡ₚ Subjects {| Subjects := [ svc_b; svc_a ] |} ∧
  newFromPolicy env_distinct two_subjects [] =
    (Some {| tokens := {[ "abc123" := svc_a; "def456" := svc_b; "ghi789" := svc_b ]};
             logger := [] |}, None) ∧
  newFromPolicy env_distinct {| Subjects := [ svc_b; svc_a ] |} [] =
    (Some {| tokens := {[ "abc123" := svc_a; "def456" := svc_b; "ghi789" := svc_b ]};
             logger := [] |}, None).
Proof.
  assert (Hperm : Subjects two_subjects ≡ₚ Subjects {| Subjects := [ svc_b; svc_a ] |})
    by apply perm_swap.
  assert (Hbuilt : newFromPolicy env_distinct two_subjects [] =
    (Some {| tokens := {[ "abc123" := svc_a; "def456" := svc_b; "ghi789" := svc_b ]};
             logger := [] |}, None)) by (vm_compute; reflexivity).
  exact (conj Hperm (conj Hbuilt
    (newFromPolicy_subject_order env_distinct two_subjects _ [] _ Hperm Hbuilt))).
Defined.

Lemma sources_loop_env (env env' : gmap string string)
    (srcs : list (policySubject * policyToken)) (table : gmap string policySubject) :
  Forall (fun src => resolve env src = resolve env' src) srcs →
  sources_loop env srcs table = sources_loop env' srcs table.
Proof.
  intros Hagree. revert table.
  induction Hagree as [|[sub tok] srcs Hsrc _ IH]; intros table; simpl; [done|].
  unfold resolve in Hsrc. simpl in Hsrc. rewrite Hsrc.
  case_decide; [done|]. destruct (table !! _); [done|]. apply IH.
Qed.

(** X12. [newFromPolicy] reads the environment only at the variables the
    document names: two environments that give every source of the document
    the same value give the same result, server or error. *)
Theorem newFromPolicy_environment (env env' : gmap string string) (c : policy)
    (log : list string) :
  Forall (fun src => resolve env src = resolve env' src) (sources (Subjects c)) →
  newFromPolicy env c log = newFromPolicy env' c log.
Proof.
  intros Hagree. unfold newFromPolicy.
  by rewrite !subjects_loop_sources, (sources_loop_env env env' _ _ Hagree).
Qed.

Lemma newFromPolicy_environment_witness :
  Forall (fun src => resolve env_distinct src = resolve env_larger src)
         (sources (Subjects two_subjects)) ∧
  newFromPolicy env_distinct two_subjects [] = newFromPolicy env_larger two_subjects [].
Proof.
  assert (Hagree : Forall (fun src => resolve env_distinct src = resolve env_larger src)
                          (sources (Subjects two_subjects))) by by_evaluation.
  exact (conj Hagree (newFromPolicy_environment env_distinct env_larger two_subjects []
                        Hagree)).
Defined.

Lemma sources_no_tokens (subs : list policySubject) :
  Forall (fun sub => policySubject.Tokens sub = []) subs → sources subs = [].
Proof.
  induction 1 as [|sub subs Hsub _ IH]; [done|].
  change (sources (sub :: subs))
    with (((fun tok => (sub, tok)) <$> policySubject.Tokens sub) ++ sources subs).
  by rewrite Hsub, IH.
Qed.

(** X13. A document in which no subject declares a token (the empty
    document is one) builds, whatever the environment, a server with an empty
    table: it answers every credential with the Unauthenticated error, on
    both services. *)
Theorem newFromPolicy_no_tokens (env : gmap string string) (c : policy) (log : list string) :
  Forall (fun sub => policySubject.Tokens sub = []) (Subjects c) →
  newFromPolicy env c log = (Some {| tokens := ∅; logger := log |}, None) ∧
  ∀ credential pairs,
    authenticate {| tokens := ∅; logger := log |} credential =
      (None, Some invalid_credential) ∧
    authorize {| tokens := ∅; logger := log |} credential pairs =
      (None, Some invalid_credential).
Proof.
  intros Hnone. split.
  - unfold newFromPolicy. by rewrite subjects_loop_sources, (sources_no_tokens _ Hnone).
  - intros credential pairs. split.
    + unfold authenticate, AuthenticateSubject. simpl. by rewrite lookup_empty.
    + unfold authorize, CheckAccess. simpl. by rewrite lookup_empty.
Qed.

Lemma newFromPolicy_no_tokens_witness :
  Forall (fun sub => policySubject.Tokens sub = []) (Subjects idle_policy) ∧
  newFromPolicy env_distinct idle_policy [] = (Some {| tokens := ∅; logger := [] |}, None).
Proof.
  assert (Hnone : Forall (fun sub => policySubject.Tokens sub = []) (Subjects idle_policy))
    by by_evaluation.
  exact (conj Hnone (proj1 (newFromPolicy_no_tokens env_distinct idle_policy [] Hnone))).
Defined.

(** ** newFromPolicy: what an error says *)

Lemma sources_loop_inl (env : gmap string string)
    (srcs : list (policySubject * policyToken)) (table : gmap string policySubject)
    (err : wrapError) :
  sources_loop env srcs table = inl err →
  ∃ pre sub tok post,
    srcs = pre ++ (sub, tok) :: post ∧
    Forall (fun src => resolve env src ≠ "") pre ∧
    NoDup (resolve env <$> pre) ∧
    (∀ src, src ∈ pre → table !! resolve env src = None) ∧
    ((err = Errorf (policySubject.ID sub) (EnvVar tok) ErrMissingValue ∧
      Getenv env (EnvVar tok) = "") ∨
     (err = Errorf (policySubject.ID sub) (EnvVar tok) ErrDuplicateValue ∧
      Getenv env (EnvVar tok) ≠ "" ∧
      (is_Some (table !! Getenv env (EnvVar tok)) ∨
       Getenv env (EnvVar tok) ∈ resolve env <$> pre))).
Proof.
  revert table. induction srcs as [|[sub tok] srcs IH]; intros table; simpl; [done|].
  case_decide as Hempty.
  { intros [= <-]. exists [], sub, tok, srcs.
    split; [done|]. split; [constructor|]. split; [constructor|]. split.
    - intros src Hin. inversion Hin.
    - by left. }
  destruct (table !! Getenv env (EnvVar tok)) as [owner|] eqn:Hlook.
  { intros [= <-]. exists [], sub, tok, srcs.
    split; [done|]. split; [constructor|]. split; [constructor|]. split.
    - intros src Hin. inversion Hin.
    - right. split; [done|]. split; [done|]. left. by exists owner. }
  intros Hrun.
  destruct (IH _ Hrun) as (pre & sub' & tok' & post & -> & Hne & Hnd & Hfresh & Hwhy).
  assert (Hnotin : Getenv env (EnvVar tok) ∉ resolve env <$> pre).
  { intros Hin. apply list_elem_of_fmap in Hin as (src & Heq & Hin).
    specialize (Hfresh src Hin). rewrite <- Heq in Hfresh.
    by rewrite lookup_insert_eq in Hfresh. }
  exists ((sub, tok) :: pre), sub', tok', post. split; [done|].
  split; [by constructor|]. split; [by constructor|]. split.
  - intros src Hin. apply elem_of_cons in Hin as [->|Hin]; [done|].
    specialize (Hfresh src Hin).
    destruct (decide (Getenv env (EnvVar tok) = resolve env src)) as [Heq|Hneq].
    + by rewrite Heq, lookup_insert_eq in Hfresh.
    + by rewrite lookup_insert_ne in Hfresh.
  - destruct Hwhy as [Hmissing|(-> & Hvalue & Hdup)]; [by left|].
    right. split; [done|]. split; [done|].
    destruct (decide (Getenv env (EnvVar tok) = Getenv env (EnvVar tok'))) as [Heq|Hneq].
    + right. rewrite fmap_cons. rewrite <- Heq. left.
    + rewrite lookup_insert_ne in Hdup by done.
      destruct Hdup as [Hold|Hin]; [by left|]. right. rewrite fmap_cons. by right.
Qed.

(** X14. Every error of [newFromPolicy] is about the first source of the
    document that fails: it names a subject of the document and a variable
    that subject declares; every source before it resolves to a non-empty
    value, no two of them to the same one; the missing-value error means the
    variable resolves to the empty string, the duplicate-value error that it
    resolves to a non-empty value which an earlier source resolves to as
    well. *)
Theorem newFromPolicy_error_sound (env : gmap string string) (c : policy)
    (log : list string) (err : wrapError) :
  newFromPolicy env c log = (None, Some err) →
  ∃ pre sub tok post,
    sources (Subjects c) = pre ++ (sub, tok) :: post ∧
    sub ∈ Subjects c ∧ tok ∈ policySubject.Tokens sub ∧
    errSubject err = policySubject.ID sub ∧ errSource err = EnvVar tok ∧
    Forall (fun src => resolve env src ≠ "") pre ∧
    NoDup (resolve env <$> pre) ∧
    match Unwrap err with
    | ErrMissingValue => Getenv env (EnvVar tok) = ""
    | ErrDuplicateValue =>
        Getenv env (EnvVar tok) ≠ "" ∧ Getenv env (EnvVar tok) ∈ resolve env <$> pre
    end.
Proof.
  intros Hfailed.
  destruct (newFromPolicy_cases env c log) as [(table & _ & Hres)|(err' & Hrun & Hres)];
    rewrite Hres in Hfailed; [done|].
  injection Hfailed as ->.
  apply sources_loop_inl in Hrun
    as (pre & sub & tok & post & Hsrcs & Hne & Hnd & _ & Hwhy).
  exists pre, sub, tok, post. split; [done|].
  assert (Hin : (sub, tok) ∈ sources (Subjects c)).
  { rewrite Hsrcs. apply elem_of_app. right. left. }
  apply elem_of_sources in Hin as [Hsub Htok].
  destruct Hwhy as [[-> Hempty]|(-> & Hvalue & [Hold|Hdup])]; simpl.
  - by repeat split.
  - rewrite lookup_empty in Hold. by destruct Hold.
  - by repeat split.
Qed.

Lemma newFromPolicy_error_sound_witness :
  newFromPolicy env_shared_then_missing two_subjects [] =
    (None, Some (Errorf "svc-b" "TOKEN_B" ErrDuplicateValue)) ∧
  ∃ pre sub tok post,
    sources (Subjects two_subjects) = pre ++ (sub, tok) :: post ∧
    sub ∈ Subjects two_subjects ∧ tok ∈ policySubject.Tokens sub ∧
    "svc-b" = policySubject.ID sub ∧ "TOKEN_B" = EnvVar tok ∧
    Forall (fun src => resolve env_shared_then_missing src ≠ "") pre ∧
    NoDup (resolve env_shared_then_missing <$> pre) ∧
    Getenv env_shared_then_missing (EnvVar tok) ≠ "" ∧
    Getenv env_shared_then_missing (EnvVar tok) ∈ resolve env_shared_then_missing <$> pre.
Proof.
  assert (Hfailed : newFromPolicy env_shared_then_missing two_subjects [] =
    (None, Some (Errorf "svc-b" "TOKEN_B" ErrDuplicateValue))) by (vm_compute; reflexivity).
  exact (conj Hfailed (newFromPolicy_error_sound env_shared_then_missing two_subjects []
                         _ Hfailed)).
Defined.

(** X15. A document that names one environment variable in two of its
    sources, of one subject or of two, never builds: whatever the
    environment, [newFromPolicy] returns an error and no server. *)
Theorem newFromPolicy_shared_variable (env : gmap string string) (c : policy)
    (log : list string) (pre mid post : list (policySubject * policyToken))
    (sub1 sub2 : policySubject) (tok1 tok2 : policyToken) :
  sources (Subjects c) = pre ++ (sub1, tok1) :: mid ++ (sub2, tok2) :: post →
  EnvVar tok1 = EnvVar tok2 →
  ∃ err, newFromPolicy env c log = (None, Some err).
Proof.
  intros Hsrcs Hvar.
  destruct (newFromPolicy_cases env c log) as [(table & Hrun & _)|(err & _ & Hres)];
    [|by exists err].
  apply sources_loop_inr in Hrun as (_ & Hnd & _).
  rewrite Hsrcs, fmap_app, fmap_cons, fmap_app, fmap_cons in Hnd.
  apply NoDup_app in Hnd as (_ & _ & Hnd). apply NoDup_cons in Hnd as [Hnotin _].
  exfalso. apply Hnotin. apply elem_of_app. right.
  unfold resolve at 1 3. simpl. rewrite Hvar. left.
Qed.

Lemma newFromPolicy_shared_variable_witness :
  sources (Subjects shared_variable_policy) =
    [] ++ (svc_a, {| EnvVar := "TOKEN_A" |}) :: [] ++ (svc_a2, {| EnvVar := "TOKEN_A" |}) :: [] ∧
  ∃ err, newFromPolicy env_distinct shared_variable_policy [] = (None, Some err).
Proof.
  exact (conj eq_refl (newFromPolicy_shared_variable env_distinct shared_variable_policy []
    [] [] [] svc_a svc_a2 {| EnvVar := "TOKEN_A" |} {| EnvVar := "TOKEN_A" |}
    eq_refl eq_refl)).
Defined.

(** ** NewServer *)

(** X16. [NewServer] returns no error exactly when the file opens,
    [readPolicy] returns a document and no error, and every token of that
    document resolves to a non-empty value that no other token resolves to.
    It then returns a server on which every token of every subject of the
    document authenticates that subject and the empty credential is refused.
    When the file opens and the document is read but a token resolves to the
    empty string or two resolve to one value, [NewServer] returns an error
    together with an interface that is not nil and holds a nil [*server]. *)
Theorem NewServer_serves_document {F E : Type} (Open : string → E + F)
    (readPolicy : F → policy * option E) (env : gmap string string)
    (policyPath : string) (log : list string) :
  ((NewServer Open readPolicy env policyPath log).2 = None ↔
   ∃ f c, Open policyPath = inr f ∧ readPolicy f = (c, None) ∧
     Forall (fun src => resolve env src ≠ "") (sources (Subjects c)) ∧
     NoDup (resolve env <$> sources (Subjects c))) ∧
  (∀ srv, NewServer Open readPolicy env policyPath log = (srv, None) →
   ∃ f c s, Open policyPath = inr f ∧ readPolicy f = (c, None) ∧
     srv = ServerOf (Some s) ∧
     (∀ sub tok, sub ∈ Subjects c → tok ∈ policySubject.Tokens sub →
        authenticate s (Getenv env (EnvVar tok)) =
          (Some {| authentication.SubjectClaims := {[ "sub" := policySubject.ID sub ]} |},
           None)) ∧
     authenticate s "" = (None, Some invalid_credential)) ∧
  (∀ f c, Open policyPath = inr f → readPolicy f = (c, None) →
     ¬ (Forall (fun src => resolve env src ≠ "") (sources (Subjects c)) ∧
        NoDup (resolve env <$> sources (Subjects c))) →
     ∃ err, NewServer Open readPolicy env policyPath log =
              (ServerOf None, Some (Wrapped err))).
Proof.
  unfold NewServer. split; [|split].
  - destruct (Open policyPath) as [err|f]; [split; [done | by intros (f & c & [=] & _)]|].
    destruct (readPolicy f) as [c [err|]] eqn:Hread.
    { split; [done|]. intros (f' & c' & [= <-] & Hread' & _). congruence. }
    destruct (newFromPolicy_cases env c log) as [(table & Hrun & ->)|(err & Hrun & ->)]; simpl.
    + split; [|done]. intros _. exists f, c. split; [done|]. split; [done|].
      apply sources_loop_succeeds. by exists table.
    + split; [done|]. intros (f' & c' & [= <-] & Hread' & Hgood).
      assert (c' = c) as -> by congruence.
      apply sources_loop_succeeds in Hgood as [table Hrun']. congruence.
  - intros srv. destruct (Open policyPath) as [err|f]; [done|].
    destruct (readPolicy f) as [c [err|]] eqn:Hread; [done|].
    destruct (newFromPolicy env c log) as [out err] eqn:Hbuilt.
    destruct err as [err|]; [done|]. simpl. intros [= <-].
    destruct (newFromPolicy_cases env c log) as [(table & Hrun & Hres)|(err & _ & Hres)];
      rewrite Hres in Hbuilt; [|done].
    injection Hbuilt as <-. eexists f, c, _. split; [done|]. split; [done|]. split; [done|].
    pose proof (newFromPolicy_table env c log _ Hres) as [_ Hlook].
    apply sources_loop_inr in Hrun as (Hne & _ & _ & _). simpl in Hlook. split.
    + intros sub tok Hsub Htok. unfold authenticate, AuthenticateSubject. simpl.
      assert (Hhit : table !! Getenv env (EnvVar tok) = Some sub).
      { apply Hlook. exists tok. split; [|done]. by apply elem_of_sources. }
      by rewrite Hhit.
    + unfold authenticate, AuthenticateSubject. simpl.
      destruct (table !! "") as [sub|] eqn:Hempty; [|done].
      apply Hlook in Hempty as (tok & Hin & Hvalue).
      by apply (proj1 (Forall_forall _ _) Hne (sub, tok)) in Hin.
  - intros f c -> -> Hbad.
    destruct (newFromPolicy_cases env c log) as [(table & Hrun & _)|(err & _ & ->)].
    + destruct Hbad. apply sources_loop_succeeds. by exists table.
    + by exists err.
Qed.

Lemma NewServer_serves_document_witness :
  NewServer example_Open example_readPolicy env_distinct "/etc/iam/policy.yaml" [] =
    (ServerOf (Some {| tokens := {[ "abc123" := svc_a; "def456" := svc_b;
                                    "ghi789" := svc_b ]};
                       logger := [] |}), None) ∧
  ∃ f c s, example_Open "/etc/iam/policy.yaml" = inr f ∧ example_readPolicy f = (c, None) ∧
    ServerOf (Some {| tokens := {[ "abc123" := svc_a; "def456" := svc_b;
                                   "ghi789" := svc_b ]};
                      logger := [] |}) = ServerOf (Some s) ∧
    (∀ sub tok, sub ∈ Subjects c → tok ∈ policySubject.Tokens sub →
       authenticate s (Getenv env_distinct (EnvVar tok)) =
         (Some {| authentication.SubjectClaims := {[ "sub" := policySubject.ID sub ]} |},
          None)) ∧
    authenticate s "" = (None, Some invalid_credential).
Proof.
  assert (Hrun : NewServer example_Open example_readPolicy env_distinct
                   "/etc/iam/policy.yaml" [] =
    (ServerOf (Some {| tokens := {[ "abc123" := svc_a; "def456" := svc_b;
                                    "ghi789" := svc_b ]};
                       logger := [] |}), None)) by (vm_compute; reflexivity).
  exact (conj Hrun (proj1 (proj2 (NewServer_serves_document example_Open example_readPolicy
    env_distinct "/etc/iam/policy.yaml" [])) _ Hrun)).
Defined.
